(** * Interaction controller of the sigma.js sandbox (main.ts)

    The page seeds a graphology graph, hands it to a sigma renderer and
    binds five handlers: [downNode], [mousemovebody], [mouseup],
    [mousedown] and [clickStage].  This development embeds the handlers
    over an explicit model of the graph store and of the two module-level
    variables [draggedNode] and [isDragging], and proves the properties
    of the drag session and of node creation.

    External collaborators are kept abstract where the handlers only call
    them: the renderer's [viewportToGraph] and [getBBox] are parameters,
    the values drawn by [uuid()] and [chroma.random().hex()] arrive as
    payload of the stage-click event, and JavaScript numbers are an
    interface ([Number]) with one concrete instance used for examples.
    The force layout started at line 92 rewrites node positions between
    events; traces here contain the five input events only. *)

From Stdlib Require Import ZArith.
From stdpp Require Import base option list sorting gmap strings.

Open Scope string_scope.

(** ** JavaScript numbers

    The handlers subtract, add and square numbers and sort by the sign
    of a difference; only these operations are needed. *)
Class Number (num : Type) := {
  num_lit : Z → num;            (* an integer literal such as [10] *)
  num_nan : num;                (* NaN, the number read from [undefined] *)
  num_sub : num → num → num;    (* a - b *)
  num_add : num → num → num;    (* a + b *)
  num_pow2 : num → num;         (* Math.pow(a, 2) *)
  num_gt0 : num → bool;         (* a > 0; false on NaN *)
}.

(** Integer-valued numbers together with NaN: the instance used to run
    the model on concrete inputs. *)
Inductive intnum := Int (z : Z) | NotANumber.

Definition intnum_sub (a b : intnum) : intnum :=
  match a, b with Int x, Int y => Int (x - y) | _, _ => NotANumber end.
Definition intnum_add (a b : intnum) : intnum :=
  match a, b with Int x, Int y => Int (x + y) | _, _ => NotANumber end.
Definition intnum_pow2 (a : intnum) : intnum :=
  match a with Int x => Int (x * x) | NotANumber => NotANumber end.
Definition intnum_gt0 (a : intnum) : bool :=
  match a with Int x => bool_decide (0 < x)%Z | NotANumber => false end.

#[export] Instance intnum_Number : Number intnum := {|
  num_lit := Int;
  num_nan := NotANumber;
  num_sub := intnum_sub;
  num_add := intnum_add;
  num_pow2 := intnum_pow2;
  num_gt0 := intnum_gt0;
|}.

(** ** Attribute values and the graph store (graphology) *)

Inductive GraphError := NotFoundGraphError | UsageGraphError.

Inductive result (A : Type) := Ok (a : A) | Throw (e : GraphError).
Arguments Ok {A} a.
Arguments Throw {A} e.

#[export] Instance result_ret : MRet result := λ A a, Ok a.
#[export] Instance result_bind : MBind result := λ A B f r,
  match r with
  | Ok a => f a
  | Throw e => Throw e
  end.

Section Model.
Context {num : Type} `{!Number num}.

(** An attribute value; the program stores numbers, strings and
    booleans. *)
Inductive value := VNum (n : num) | VStr (s : string) | VBool (b : bool).

(** Attribute objects are JavaScript objects used as maps. *)
Local Abbreviation Attributes := (gmap string value).

(** Reading a numeric attribute as the handlers do in arithmetic
    position: a missing attribute is [undefined] and converts to NaN.
    The program writes only numbers under ["x"] and ["y"]. *)
Definition attrNumber (attrs : Attributes) (name : string) : num :=
  match attrs !! name with
  | Some (VNum n) => n
  | _ => num_nan
  end.

Record Edge := mkEdge {
  source : string;
  target : string;
  edgeAttributes : Attributes;
}.

(** graphology keeps nodes and edges in insertion-ordered maps; the
    node map is an association list whose order is the iteration order
    of [graph.nodes()]. *)
Record Graph := mkGraph {
  g_nodes : list (string * Attributes);
  g_edges : list Edge;
}.

Definition emptyGraph : Graph := mkGraph [] [].

(** [graph.nodes()] *)
Definition nodes (g : Graph) : list string := (g_nodes g).*1.

(** [graph.order] *)
Definition order (g : Graph) : nat := length (g_nodes g).

(** [graph.hasNode(key)] *)
Definition hasNode (key : string) (g : Graph) : bool :=
  bool_decide (key ∈ nodes g).

Fixpoint lookupNode (key : string) (l : list (string * Attributes))
  : option Attributes :=
  match l with
  | [] => None
  | (k, a) :: l' => if decide (k = key) then Some a else lookupNode key l'
  end.

Fixpoint updateNode (key : string) (f : Attributes → Attributes)
    (l : list (string * Attributes)) : list (string * Attributes) :=
  match l with
  | [] => []
  | (k, a) :: l' =>
      if decide (k = key) then (k, f a) :: l'
      else (k, a) :: updateNode key f l'
  end.

(** [graph.getNodeAttributes(key)]: throws when the node is unknown. *)
Definition getNodeAttributes (key : string) (g : Graph) : result Attributes :=
  match lookupNode key (g_nodes g) with
  | Some a => Ok a
  | None => Throw NotFoundGraphError
  end.

(** [graph.addNode(key, attributes)]: throws when the key is taken. *)
Definition addNode (key : string) (attrs : Attributes) (g : Graph)
  : result Graph :=
  if hasNode key g then Throw UsageGraphError
  else Ok (mkGraph (g_nodes g ++ [(key, attrs)]) (g_edges g)).

(** Is there already a directed edge [src -> tgt]? *)
Definition hasDirectedEdge (src tgt : string) (g : Graph) : bool :=
  existsb (λ e, bool_decide (source e = src) && bool_decide (target e = tgt))
          (g_edges g).

(** [graph.addEdge(source, target, attributes)] on the default (mixed,
    simple, self-loops allowed) graph: both ends must exist and the
    directed edge must not exist yet. *)
Definition addEdge (src tgt : string) (attrs : Attributes) (g : Graph)
  : result Graph :=
  if negb (hasNode src g) then Throw NotFoundGraphError
  else if negb (hasNode tgt g) then Throw NotFoundGraphError
  else if hasDirectedEdge src tgt g then Throw UsageGraphError
  else Ok (mkGraph (g_nodes g) (g_edges g ++ [mkEdge src tgt attrs])).

(** [graph.setNodeAttribute(key, name, value)] *)
Definition setNodeAttribute (key name : string) (v : value) (g : Graph)
  : result Graph :=
  if hasNode key g
  then Ok (mkGraph (updateNode key (insert name v) (g_nodes g)) (g_edges g))
  else Throw NotFoundGraphError.

(** [graph.removeNodeAttribute(key, name)] *)
Definition removeNodeAttribute (key name : string) (g : Graph)
  : result Graph :=
  if hasNode key g
  then Ok (mkGraph (updateNode key (delete name) (g_nodes g)) (g_edges g))
  else Throw NotFoundGraphError.

(** ** The seed graph (lines 47-78) *)

Definition RED := "#FA4F40".
Definition BLUE := "#727EE0".
Definition GREEN := "#5DB346".

Definition imageNode (label image color : string) : Attributes :=
  list_to_map [("size", VNum (num_lit 15)); ("label", VStr label);
               ("type", VStr "image"); ("image", VStr image);
               ("color", VStr color)].

Definition borderNode (label color : string) : Attributes :=
  list_to_map [("size", VNum (num_lit 7)); ("label", VStr label);
               ("type", VStr "border"); ("color", VStr color)].

Definition seedEdge (type label : string) : Attributes :=
  list_to_map [("type", VStr type); ("label", VStr label);
               ("size", VNum (num_lit 5))].

(** Statements executed one after the other; the first exception ends
    the script. *)
Definition script (ops : list (Graph → result Graph)) (g : Graph)
  : result Graph :=
  foldl (λ r op, r ≫= op) (Ok g) ops.

Section Seed.
(** [arrange i n] stands for the point
    [(100 * cos(i * 2π / n), 100 * sin(i * 2π / n))] of lines 75-77. *)
Variable arrange : nat → nat → num * num.

Fixpoint arrangeFrom (i : nat) (keys : list string) (g : Graph)
  : result Graph :=
  match keys with
  | [] => Ok g
  | node :: rest =>
      g1 ← setNodeAttribute node "x" (VNum (arrange i (order g)).1) g;
      g2 ← setNodeAttribute node "y" (VNum (arrange i (order g1)).2) g1;
      arrangeFrom (S i) rest g2
  end.

Definition seedScript : result Graph :=
  script
    [ addNode "John" (imageNode "John" "./user.svg" RED);
      addNode "Mary" (imageNode "Mary" "./user.svg" RED);
      addNode "Suzan" (imageNode "Suzan" "./user.svg" RED);
      addNode "Nantes" (imageNode "Nantes" "./city.svg" BLUE);
      addNode "New-York" (imageNode "New-York" "./city.svg" BLUE);
      addNode "Sushis" (borderNode "Sushis" GREEN);
      addNode "Falafels" (borderNode "Falafels" GREEN);
      addNode "Kouign Amann" (borderNode "Kouign Amann" GREEN);
      addEdge "John" "Mary" (seedEdge "line" "works with");
      addEdge "Mary" "Suzan" (seedEdge "line" "works with");
      addEdge "Mary" "Nantes" (seedEdge "arrow" "lives in");
      addEdge "John" "New-York" (seedEdge "arrow" "surfs with");
      addEdge "Suzan" "New-York" (seedEdge "arrow" "lives in");
      addEdge "John" "Falafels" (seedEdge "arrow" "eats");
      addEdge "Mary" "Sushis" (seedEdge "arrow" "eats");
      addEdge "Suzan" "Kouign Amann" (seedEdge "arrow" "eats");
      λ g, arrangeFrom 0 (nodes g) g ]
    emptyGraph.

Definition seedGraph : Graph :=
  match seedScript with
  | Ok g => g
  | Throw _ => emptyGraph
  end.
End Seed.

(** ** The page state *)

(** A point, in viewport or in graph space: [{ x, y }]. *)
Record Coordinates := mkCoordinates { cx : num; cy : num }.

(** [{ x: Extent, y: Extent }] *)
Record BBox := mkBBox { bbox_x : num * num; bbox_y : num * num }.

Record World := mkWorld {
  graph : Graph;
  draggedNode : option string;     (* string | null *)
  isDragging : bool;
  customBBox : option BBox;        (* the renderer's custom bounding box *)
}.

(** ** The handler monad

    Handlers run in a state monad in which an exception ends the
    handler and keeps the writes made so far. *)
Definition M (A : Type) : Type := World → World * result A.

#[export] Instance M_ret : MRet M := λ A a w, (w, Ok a).
#[export] Instance M_bind : MBind M := λ A B f m w,
  match m w with
  | (w', Ok a) => f a w'
  | (w', Throw e) => (w', Throw e)
  end.

Definition read {A} (proj : World → A) : M A := λ w, (w, Ok (proj w)).

Definition assign_isDragging (b : bool) : M unit := λ w,
  (mkWorld (graph w) (draggedNode w) b (customBBox w), Ok ()).

Definition assign_draggedNode (d : option string) : M unit := λ w,
  (mkWorld (graph w) d (isDragging w) (customBBox w), Ok ()).

(** [renderer.setCustomBBox(b)] *)
Definition setCustomBBox (b : BBox) : M unit := λ w,
  (mkWorld (graph w) (draggedNode w) (isDragging w) (Some b), Ok ()).

(** A call on the graph store. *)
Definition onGraph (op : Graph → result Graph) : M unit := λ w,
  match op (graph w) with
  | Ok g' => (mkWorld g' (draggedNode w) (isDragging w) (customBBox w), Ok ())
  | Throw e => (w, Throw e)
  end.

(** A query on the graph store. *)
Definition askGraph {A} (q : Graph → result A) : M A := λ w,
  (w, q (graph w)).

(** [xs.map(f)] with a callback that may throw. *)
Fixpoint mapM {A B} (f : A → M B) (xs : list A) : M (list B) :=
  match xs with
  | [] => mret []
  | x :: xs' => b ← f x; bs ← mapM f xs'; mret (b :: bs)
  end.

(** [xs.forEach(f)] *)
Fixpoint forEach {A} (f : A → M unit) (xs : list A) : M unit :=
  match xs with
  | [] => mret ()
  | x :: xs' => f x;; forEach f xs'
  end.

(** Truthiness of a [string | null]: [null] and the empty string are
    falsy. *)
Definition truthy (d : option string) : bool :=
  match d with
  | None => false
  | Some s => negb (bool_decide (s = EmptyString))
  end.

(** ** Sorting candidates

    [Array.prototype.sort] is stable; with the comparator
    [(a, b) => a.distance - b.distance] an element moves behind another
    exactly when the difference is positive.  It is modelled by a stable
    insertion sort, which is the result of every stable sort as long as
    the comparator is consistent (see [consistent] below). *)
Record Candidate := mkCandidate { nodeId : string; distance : num }.

(** line 171 *)
Definition squaredDistance (node attrs : Attributes) : num :=
  num_add (num_pow2 (num_sub (attrNumber node "x") (attrNumber attrs "x")))
          (num_pow2 (num_sub (attrNumber node "y") (attrNumber attrs "y"))).

Definition compareFn (a b : Candidate) : num :=
  num_sub (distance a) (distance b).

Fixpoint insertSorted (a : Candidate) (l : list Candidate) : list Candidate :=
  match l with
  | [] => [a]
  | b :: l' =>
      if num_gt0 (compareFn a b) then b :: insertSorted a l' else a :: b :: l'
  end.

Definition sort (l : list Candidate) : list Candidate :=
  foldr insertSorted [] l.

(** [.slice(0, 2)] *)
Definition slice02 {A} (l : list A) : list A := take 2 l.

(** The comparator leaves [a] in front of [b]. *)
Definition keeps (a b : Candidate) : bool := negb (num_gt0 (compareFn a b)).

(** The comparator is a total preorder on the given candidates, which
    is what [Array.prototype.sort] asks of it; it fails to be one when a
    distance is NaN. *)
Definition consistent (cs : list Candidate) : bool :=
  forallb (λ a, forallb (λ b, keeps a b || keeps b a) cs) cs
  && forallb (λ a, forallb (λ b, forallb (λ c,
       implb (keeps a b && keeps b c) (keeps a c)) cs) cs) cs.

(** The attributes stored under a key (empty for an unknown key). *)
Definition attributesOf (key : string) (g : Graph) : Attributes :=
  default ∅ (lookupNode key (g_nodes g)).

(** The distances of line 171 for every node of the graph, in
    iteration order. *)
Definition candidates (node : Attributes) (g : Graph) : list Candidate :=
  map (λ id, mkCandidate id (squaredDistance node (attributesOf id g)))
      (nodes g).

(** ** Observations used in the statements *)

(** [graph.getNodeAttribute(key, name)], [None] standing for
    [undefined]. *)
Definition getNodeAttribute (key name : string) (g : Graph) : option value :=
  lookupNode key (g_nodes g) ≫= (λ attrs, attrs !! name).

(** The nodes that carry the [highlighted] attribute. *)
Definition highlightedNodes (g : Graph) : list string :=
  (filter (λ na, is_Some (na.2 !! "highlighted")) (g_nodes g)).*1.

(** Every edge joins two nodes of the graph. *)
Definition edgesClosed (g : Graph) : Prop :=
  ∀ e, e ∈ g_edges g → source e ∈ nodes g ∧ target e ∈ nodes g.

(** What graphology maintains: node keys are unique and edges join
    existing nodes. *)
Definition graph_wf (g : Graph) : Prop :=
  NoDup (nodes g) ∧ edgesClosed g.

(** The drag session as the controller keeps it: idle with no node
    highlighted, or dragging a node of the graph that alone is
    highlighted. *)
Definition sessionInvariant (w : World) : Prop :=
  (isDragging w = false ∧ draggedNode w = None
   ∧ highlightedNodes (graph w) = [])
  ∨ (isDragging w = true
     ∧ ∃ n, draggedNode w = Some n ∧ n ∈ nodes (graph w)
            ∧ highlightedNodes (graph w) = [n]).

(** The attribute object holds numbers under ["x"] and ["y"]. *)
Definition hasPosition (attrs : Attributes) : bool :=
  match attrs !! "x", attrs !! "y" with
  | Some (VNum _), Some (VNum _) => true
  | _, _ => false
  end.

(** Every node of the graph has a position. *)
Definition positioned (g : Graph) : bool :=
  forallb (λ na, hasPosition na.2) (g_nodes g).

(** A rewriting of an attribute object that can change only ["x"],
    ["y"] and ["highlighted"], and never loses a position. *)
Definition gentle (f : Attributes → Attributes) : Prop :=
  (∀ a name, name ≠ "x" → name ≠ "y" → name ≠ "highlighted" →
             f a !! name = a !! name)
  ∧ (∀ a, hasPosition a = true → hasPosition (f a) = true).

(** The two module variables agree: either no drag is recorded, or
    [isDragging] is set and [draggedNode] names a node of the graph. *)
Definition coherent (w : World) : bool :=
  match draggedNode w with
  | None => negb (isDragging w)
  | Some n => isDragging w && hasNode n (graph w)
  end.

(** The ends of an edge. *)
Definition edgeEnds (e : Edge) : string * string := (source e, target e).

(** No two edges share both ends in the same direction, and no edge is
    a self-loop. *)
Definition simpleGraph (g : Graph) : Prop :=
  NoDup (edgeEnds <$> g_edges g) ∧ ∀ e, e ∈ g_edges g → source e ≠ target e.

(** The comparator ranks [a] and [b] equal. *)
Definition ties (a b : Candidate) : bool := keeps a b && keeps b a.

(** [uuid()] returns the canonical textual form, 36 characters long. *)
Definition is_uuid (s : string) : bool := bool_decide (String.length s = 36).

Section Controller.
(** The renderer: coordinate conversion and the auto-computed bounding
    box, both of which may depend on everything the renderer sees. *)
Variable viewportToGraph : World → Coordinates → Coordinates.
Variable getBBox : World → BBox.

(** [renderer.viewportToGraph(p)] *)
Definition renderer_viewportToGraph (p : Coordinates) : M Coordinates :=
  λ w, (w, Ok (viewportToGraph w p)).

(** [renderer.getBBox()] *)
Definition renderer_getBBox : M BBox := λ w, (w, Ok (getBBox w)).

(** lines 108-113 *)
Definition downNode (e_node : string) : M unit :=
  assign_isDragging true;;
  assign_draggedNode (Some e_node);;
  onGraph (setNodeAttribute e_node "highlighted" (VBool true)).

(** lines 116-130; the calls that only stop the camera from panning
    touch nothing modelled here. *)
Definition mousemovebody (e : Coordinates) : M unit :=
  dragging ← read isDragging;
  dragged ← read draggedNode;
  if negb dragging || negb (truthy dragged) then mret ()
  else
    match dragged with
    | None => mret ()
    | Some n =>
        pos ← renderer_viewportToGraph e;
        onGraph (setNodeAttribute n "x" (VNum (cx pos)));;
        onGraph (setNodeAttribute n "y" (VNum (cy pos)))
    end.

(** lines 133-140 *)
Definition mouseup : M unit :=
  dragged ← read draggedNode;
  (if truthy dragged
   then match dragged with
        | Some n => onGraph (removeNodeAttribute n "highlighted")
        | None => mret ()
        end
   else mret ());;
  assign_isDragging false;;
  assign_draggedNode None.

(** lines 143-145; a bounding box object is always truthy. *)
Definition mousedown : M unit :=
  custom ← read customBBox;
  match custom with
  | None => box ← renderer_getBBox; setCustomBBox box
  | Some _ => mret ()
  end.

(** The object literal of lines 160-164. *)
Definition newNode (coordForGraph : Coordinates) (color : string)
  : Attributes :=
  <["color" := VStr color]>
    (<["size" := VNum (num_lit 10)]>
       (<["y" := VNum (cy coordForGraph)]>
          (<["x" := VNum (cx coordForGraph)]> ∅))).

(** The callback of lines 169-173. *)
Definition candidate (node : Attributes) (id : string) : M Candidate :=
  attrs ← askGraph (getNodeAttributes id);
  mret (mkCandidate id (squaredDistance node attrs)).

(** lines 167-175 *)
Definition closestNodes (node : Attributes) : M (list Candidate) :=
  ids ← read (λ w, nodes (graph w));
  cs ← mapM (candidate node) ids;
  mret (slice02 (sort cs)).

(** lines 153-183; [color] is the value of [chroma.random().hex()] and
    [id] the value of [uuid()]. *)
Definition clickStage (event : Coordinates) (color id : string) : M unit :=
  coordForGraph ← renderer_viewportToGraph event;
  let node := newNode coordForGraph color in
  closest ← closestNodes node;
  onGraph (addNode id node);;
  forEach (λ e, onGraph (addEdge id (nodeId e) ∅)) closest.

(** ** Events *)
Inductive Event :=
| DownNode (node : string)
| MouseMoveBody (e : Coordinates)
| MouseUp
| MouseDown
| ClickStage (event : Coordinates) (color id : string).

Definition handle (ev : Event) : M unit :=
  match ev with
  | DownNode n => downNode n
  | MouseMoveBody e => mousemovebody e
  | MouseUp => mouseup
  | MouseDown => mousedown
  | ClickStage e color id => clickStage e color id
  end.

(** The stage clicks of a trace. *)
Definition isClickStage (ev : Event) : bool :=
  match ev with
  | ClickStage _ _ _ => true
  | _ => false
  end.

Definition clickCount (evs : list Event) : nat :=
  length (filter (λ ev, isClickStage ev = true) evs).

(** An uncaught exception ends the handler; the page keeps running. *)
Definition step (w : World) (ev : Event) : World := (handle ev w).1.

Definition run (w : World) (evs : list Event) : World := foldl step w evs.

(** What the renderer can emit in a given state: a node press names a
    node of the graph, and a stage click carries a value of [uuid()]. *)
Definition emittable (w : World) (ev : Event) : bool :=
  match ev with
  | DownNode n => hasNode n (graph w)
  | ClickStage _ _ id => is_uuid id
  | _ => true
  end.

(** As [emittable], and a node is pressed only while no drag is
    active. *)
Definition sequential (w : World) (ev : Event) : bool :=
  emittable w ev &&
  match ev with
  | DownNode _ => negb (isDragging w) && negb (truthy (draggedNode w))
  | _ => true
  end.

(** Every event of the trace is allowed in the state that receives it. *)
Fixpoint accepts (allowed : World → Event → bool) (w : World)
    (evs : list Event) : bool :=
  match evs with
  | [] => true
  | ev :: evs' => allowed w ev && accepts allowed (step w ev) evs'
  end.

(** The positions given to the seed nodes (see [arrangeFrom]). *)
Variable arrange : nat → nat → num * num.

(** The state of the page once the module has been evaluated. *)
Definition initialWorld : World :=
  mkWorld (seedGraph arrange) None false None.

Definition reachable (w : World) : Prop :=
  ∃ evs, accepts emittable initialWorld evs = true ∧ w = run initialWorld evs.

End Controller.
End Model.

Arguments value : clear implicits.
Arguments Edge : clear implicits.
Arguments Graph : clear implicits.
Arguments Coordinates : clear implicits.
Arguments BBox : clear implicits.
Arguments World : clear implicits.
Arguments Candidate : clear implicits.
Arguments Event : clear implicits.
Arguments M : clear implicits.

(** ** A concrete renderer over [intnum] *)
Module Demo.

(** The seed circle, rounded to integers. *)
Definition arrange (i n : nat) : intnum * intnum :=
  match i with
  | 0 => (Int 100, Int 0)
  | 1 => (Int 71, Int 71)
  | 2 => (Int 0, Int 100)
  | 3 => (Int (-71), Int 71)
  | 4 => (Int (-100), Int 0)
  | 5 => (Int (-71), Int (-71))
  | 6 => (Int 0, Int (-100))
  | _ => (Int 71, Int (-71))
  end.

(** A renderer whose viewport coincides with graph space. *)
Definition viewportToGraph (w : World intnum) (p : Coordinates intnum)
  : Coordinates intnum := p.

Definition getBBox (w : World intnum) : BBox intnum :=
  mkBBox (Int (-100), Int 100) (Int (-100), Int 100).

(** Three nodes at (0,0), (10,0) and (0,10). *)
Definition at_ (x y : Z) : gmap string (value intnum) :=
  list_to_map [("x", VNum (Int x)); ("y", VNum (Int y))].

Definition triangle : Graph intnum :=
  mkGraph [("a", at_ 0 0); ("b", at_ 10 0); ("c", at_ 0 10)] [].

Abbreviation world0 := (initialWorld arrange).

Definition triangleWorld : World intnum := mkWorld triangle None false None.

Abbreviation step := (step viewportToGraph getBBox).
Abbreviation run := (run viewportToGraph getBBox).
Abbreviation accepts := (accepts viewportToGraph getBBox).
Abbreviation reachable := (reachable viewportToGraph getBBox arrange).

Definition point (x y : Z) : Coordinates intnum :=
  mkCoordinates (Int x) (Int y).

(** The seed graph with one more node, stored under the empty key. *)
Definition emptyKeyWorld : World intnum :=
  mkWorld (mkGraph (g_nodes (seedGraph arrange) ++ [(EmptyString, at_ 5 5)])
                   (g_edges (seedGraph arrange)))
          None false None.

(** The triangle with the position of "b" missing. *)
Definition strayWorld : World intnum :=
  mkWorld (mkGraph [("a", at_ 0 0); ("b", ∅); ("c", at_ 0 10)] [])
          None false None.

(** A graph with a single node, and the empty graph. *)
Definition singletonWorld : World intnum :=
  mkWorld (mkGraph [("a", at_ 0 0)] []) None false None.

Definition emptyWorld : World intnum := mkWorld emptyGraph None false None.

Definition uuid1 := "9b1deb4d-3b7d-4bad-9bdd-2b0d7b3dcb6d".

End Demo.

(** * Properties *)

(** ** The graph store *)
Section GraphFacts.
Context {num : Type} `{!Number num}.
Implicit Types (g : Graph num) (l : list (string * gmap string (value num))).
Implicit Types (f : gmap string (value num) → gmap string (value num)).

Lemma hasNode_true key g : hasNode key g = true ↔ key ∈ nodes g.
Proof. unfold hasNode. apply bool_decide_eq_true. Qed.

Lemma hasNode_false key g : hasNode key g = false ↔ key ∉ nodes g.
Proof. unfold hasNode. apply bool_decide_eq_false. Qed.

Lemma updateNode_keys key f l : (updateNode key f l).*1 = l.*1.
Proof.
  induction l as [|[k a] l IH]; [done|].
  cbn [updateNode]. case_decide; [done|]. by rewrite !fmap_cons, IH.
Qed.

Lemma lookupNode_is_Some key l : key ∈ l.*1 ↔ is_Some (lookupNode key l).
Proof.
  induction l as [|[k a] l IH]; simpl.
  - split; [by intros ?%elem_of_nil | by intros [? ?]].
  - rewrite elem_of_cons. case_decide; subst.
    + split; eauto.
    + rewrite <- IH. split; [by intros [?|?] | by right].
Qed.

Lemma lookupNode_updateNode_eq key f l :
  lookupNode key (updateNode key f l) = f <$> lookupNode key l.
Proof.
  induction l as [|[k a] l IH]; [done|].
  simpl. case_decide; simpl; case_decide; try done.
Qed.

(** An update is pointwise: keys stay, entries under other keys stay,
    and the entries under [key] change at most as [f] changes them. *)
Lemma updateNode_Forall2 key f (P : relation (gmap string (value num))) l :
  (∀ a, P a a) → (∀ a, P a (f a)) →
  Forall2 (λ na nb, na.1 = nb.1 ∧ (na.1 ≠ key → na.2 = nb.2) ∧ P na.2 nb.2)
          l (updateNode key f l).
Proof.
  intros Hrefl Hf. induction l as [|[k a] l IH]; simpl; [constructor|].
  case_decide; simplify_eq.
  - constructor; [naive_solver|].
    apply Forall_Forall2_diag, Forall_forall. naive_solver.
  - constructor; [naive_solver | done].
Qed.

Lemma updateNode_updateNode key f1 f2 l :
  updateNode key f2 (updateNode key f1 l) = updateNode key (f2 ∘ f1) l.
Proof.
  induction l as [|[k a] l IH]; [done|].
  simpl. case_decide; simpl; case_decide; try done. by rewrite IH.
Qed.

Lemma hasDirectedEdge_false src tgt g :
  hasDirectedEdge src tgt g = false
  ↔ ∀ e, e ∈ g_edges g → source e = src → target e ≠ tgt.
Proof.
  unfold hasDirectedEdge. rewrite <- not_true_iff_false, existsb_exists.
  split.
  - intros Hno e He Hs Ht. apply Hno. exists e.
    split; [by apply list_elem_of_In|].
    by rewrite andb_true_iff, !bool_decide_eq_true.
  - intros Hno (e & He & Hst). apply list_elem_of_In in He.
    rewrite andb_true_iff, !bool_decide_eq_true in Hst.
    destruct Hst as [Hs Ht]. by apply (Hno e).
Qed.

Lemma addEdge_Ok src tgt attrs g :
  src ∈ nodes g → tgt ∈ nodes g →
  (∀ e, e ∈ g_edges g → source e = src → target e ≠ tgt) →
  addEdge src tgt attrs g
  = Ok (mkGraph (g_nodes g) (g_edges g ++ [mkEdge src tgt attrs])).
Proof.
  intros Hs Ht Hno. unfold addEdge.
  rewrite (proj2 (hasNode_true src g) Hs), (proj2 (hasNode_true tgt g) Ht).
  by rewrite (proj2 (hasDirectedEdge_false src tgt g) Hno).
Qed.

(** An edge is only ever added between two nodes of the graph. *)
Lemma addEdge_inv src tgt attrs g g' :
  addEdge src tgt attrs g = Ok g' →
  src ∈ nodes g ∧ tgt ∈ nodes g
  ∧ g' = mkGraph (g_nodes g) (g_edges g ++ [mkEdge src tgt attrs]).
Proof.
  unfold addEdge.
  destruct (hasNode src g) eqn:Hs; [|done].
  destruct (hasNode tgt g) eqn:Ht; [|done].
  destruct (hasDirectedEdge src tgt g); [done|]. simpl.
  intros [= <-]. by rewrite <- !hasNode_true.
Qed.

Lemma addNode_inv key attrs g g' :
  addNode key attrs g = Ok g' →
  (key ∉ nodes g)
  ∧ g' = mkGraph (g_nodes g ++ [(key, attrs)]) (g_edges g).
Proof.
  unfold addNode. destruct (hasNode key g) eqn:Hk; [done|].
  intros [= <-]. by rewrite <- hasNode_false.
Qed.

Lemma addNode_Ok key attrs g :
  key ∉ nodes g →
  addNode key attrs g = Ok (mkGraph (g_nodes g ++ [(key, attrs)]) (g_edges g)).
Proof.
  intros Hk. unfold addNode. by rewrite (proj2 (hasNode_false key g) Hk).
Qed.

(** *** Highlighted nodes *)
Lemma highlightedNodes_update_frame key f l es :
  (∀ a, f a !! "highlighted" = a !! "highlighted") →
  highlightedNodes (mkGraph (updateNode key f l) es)
  = highlightedNodes (mkGraph l es).
Proof.
  intros Hf. unfold highlightedNodes; cbn.
  induction l as [|[k a] l IH]; [done|].
  cbn [updateNode]. case_decide.
  - rewrite !filter_cons; cbn. rewrite Hf. by destruct (decide _).
  - rewrite !filter_cons; cbn. destruct (decide _); [|done].
    by rewrite !fmap_cons, IH.
Qed.

Lemma highlightedNodes_set key v l es :
  key ∈ l.*1 → highlightedNodes (mkGraph l es) = [] →
  highlightedNodes
    (mkGraph (updateNode key (insert "highlighted" v) l) es) = [key].
Proof.
  unfold highlightedNodes; cbn.
  induction l as [|[k a] l IH]; [by intros ?%elem_of_nil|].
  rewrite fmap_cons, elem_of_cons, filter_cons; cbn.
  destruct (decide (is_Some (a !! "highlighted"))) as [Ha|Ha]; [done|].
  intros Hin Hnil. case_decide as Hk; subst.
  - rewrite filter_cons; cbn. rewrite lookup_insert_eq.
    rewrite decide_True by eauto. by rewrite fmap_cons, Hnil.
  - rewrite filter_cons; cbn. rewrite decide_False by done.
    apply IH; [|done]. by destruct Hin.
Qed.

Lemma highlightedNodes_subseteq l es : highlightedNodes (mkGraph l es) ⊆ l.*1.
Proof.
  unfold highlightedNodes; cbn. intros k Hk.
  apply list_elem_of_fmap in Hk as (na & -> & Hna).
  apply list_elem_of_filter in Hna as [_ Hna].
  apply list_elem_of_fmap. eauto.
Qed.

Lemma highlightedNodes_remove key l es :
  NoDup l.*1 → highlightedNodes (mkGraph l es) = [key] →
  highlightedNodes (mkGraph (updateNode key (delete "highlighted") l) es) = [].
Proof.
  induction l as [|[k a] l IH]; [done|].
  rewrite fmap_cons, NoDup_cons. intros [Hk Hnd].
  unfold highlightedNodes in *; cbn [g_nodes updateNode] in *.
  rewrite filter_cons; cbn [snd].
  destruct (decide (is_Some (a !! "highlighted"))) as [Ha|Ha].
  - rewrite fmap_cons; cbn [fst]. intros [= -> Hnil].
    rewrite decide_True by done. rewrite filter_cons; cbn [snd].
    rewrite lookup_delete_eq. rewrite decide_False by (by intros [? ?]).
    done.
  - intros Hl. case_decide as Hkk; subst.
    + exfalso. apply Hk.
      apply (highlightedNodes_subseteq l es). unfold highlightedNodes; cbn.
      rewrite Hl. by left.
    + rewrite filter_cons; cbn [snd]. rewrite decide_False by done.
      by apply IH.
Qed.

Lemma highlightedNodes_app l l' es :
  highlightedNodes (mkGraph (l ++ l') es)
  = (highlightedNodes (mkGraph l es) ++ highlightedNodes (mkGraph l' es))%list.
Proof. unfold highlightedNodes; cbn. by rewrite filter_app, fmap_app. Qed.

Lemma setNodeAttribute_Ok key name v g :
  key ∈ nodes g →
  setNodeAttribute key name v g
  = Ok (mkGraph (updateNode key (insert name v) (g_nodes g)) (g_edges g)).
Proof.
  intros Hin. unfold setNodeAttribute.
  by rewrite (proj2 (hasNode_true key g) Hin).
Qed.

Lemma removeNodeAttribute_Ok key name g :
  key ∈ nodes g →
  removeNodeAttribute key name g
  = Ok (mkGraph (updateNode key (delete name) (g_nodes g)) (g_edges g)).
Proof.
  intros Hin. unfold removeNodeAttribute.
  by rewrite (proj2 (hasNode_true key g) Hin).
Qed.

End GraphFacts.

(** ** Sorting *)
Section SortFacts.
Context {num : Type} `{!Number num}.
Implicit Types (a b c : Candidate num) (l cs : list (Candidate num)).

Lemma insertSorted_Permutation a l : insertSorted a l ≡ₚ a :: l.
Proof.
  induction l as [|b l IH]; simpl; [done|].
  destruct (num_gt0 (compareFn a b)); [|done].
  rewrite IH. apply Permutation_swap.
Qed.

Lemma sort_Permutation l : sort l ≡ₚ l.
Proof.
  induction l as [|a l IH]; simpl; [done|].
  rewrite insertSorted_Permutation. by constructor.
Qed.

Lemma sort_length l : length (sort l) = length l.
Proof. apply Permutation_length, sort_Permutation. Qed.

Lemma slice02_length {A} (l : list A) : length (slice02 l) = 2 `min` length l.
Proof. apply length_take. Qed.

(** What [consistent] gives on the listed candidates. *)
Lemma consistent_total cs a b :
  consistent cs = true → a ∈ cs → b ∈ cs →
  keeps a b = true ∨ keeps b a = true.
Proof.
  unfold consistent. rewrite andb_true_iff, !forallb_forall.
  intros [Htot _] Ha%list_elem_of_In Hb%list_elem_of_In.
  specialize (Htot a Ha). rewrite forallb_forall in Htot.
  apply orb_true_iff, Htot, Hb.
Qed.

Lemma consistent_trans cs a b c :
  consistent cs = true → a ∈ cs → b ∈ cs → c ∈ cs →
  keeps a b = true → keeps b c = true → keeps a c = true.
Proof.
  unfold consistent. rewrite andb_true_iff, !forallb_forall.
  intros [_ Htr] Ha%list_elem_of_In Hb%list_elem_of_In Hc%list_elem_of_In Hab Hbc.
  specialize (Htr a Ha). rewrite forallb_forall in Htr.
  specialize (Htr b Hb). rewrite forallb_forall in Htr.
  specialize (Htr c Hc). rewrite Hab, Hbc in Htr. exact Htr.
Qed.

(** Insertion keeps a list ascending when the comparator is consistent
    on the elements involved. *)
Lemma insertSorted_sorted cs a l :
  consistent cs = true → a ∈ cs → l ⊆ cs →
  StronglySorted (λ x y, keeps x y = true) l →
  StronglySorted (λ x y, keeps x y = true) (insertSorted a l).
Proof.
  intros Hc Ha Hl Hs. induction Hs as [|b l Hs IH Hb]; simpl.
  - repeat constructor.
  - assert (b ∈ cs) as Hbin by (apply Hl; left).
    assert (l ⊆ cs) as Hl' by (intros x Hx; apply Hl; by right).
    destruct (num_gt0 (compareFn a b)) eqn:Hgt.
    + constructor; [by apply IH|].
      rewrite insertSorted_Permutation. constructor; [|done].
      destruct (consistent_total cs a b Hc Ha Hbin) as [Hk|Hk]; [|done].
      unfold keeps in Hk. by rewrite Hgt in Hk.
    + assert (keeps a b = true) as Hab by (unfold keeps; by rewrite Hgt).
      constructor; [by constructor|].
      constructor; [done|].
      rewrite Forall_forall in Hb |- *. intros x Hx.
      apply (consistent_trans cs a b x); auto.
Qed.

Lemma sort_sorted cs l :
  consistent cs = true → l ⊆ cs →
  StronglySorted (λ x y, keeps x y = true) (sort l).
Proof.
  intros Hc. induction l as [|a l IH]; intros Hl; simpl; [constructor|].
  apply (insertSorted_sorted cs); [done | apply Hl; left | |].
  - intros x Hx. apply Hl. right. by rewrite <- (sort_Permutation l).
  - apply IH. intros x Hx. apply Hl. by right.
Qed.

(** In an ascending list every element of a prefix stays in front of
    every element of the rest. *)
Lemma sorted_take_drop n l a b :
  StronglySorted (λ x y, keeps x y = true) l →
  a ∈ take n l → b ∈ drop n l → keeps a b = true.
Proof.
  intros Hs. revert n. induction Hs as [|x l Hs IH Hx]; intros n.
  - rewrite take_nil. by intros ?%elem_of_nil.
  - destruct n as [|n]; simpl; [by intros ?%elem_of_nil|].
    rewrite elem_of_cons. intros [->|Ha] Hb; [|by eapply IH].
    rewrite Forall_forall in Hx. apply Hx.
    by apply (subseteq_drop n l).
Qed.

End SortFacts.

(** ** The handlers *)
Section ControllerFacts.
Context {num : Type} `{!Number num}.
Variable viewportToGraph : World num → Coordinates num → Coordinates num.
Variable getBBox : World num → BBox num.
Implicit Types (w : World num) (g : Graph num) (ev : Event num).
Implicit Types (node : gmap string (value num)) (cs : list (Candidate num)).

Local Abbreviation step := (step viewportToGraph getBBox).
Local Abbreviation run := (run viewportToGraph getBBox).

Lemma run_app w evs1 evs2 : run w (evs1 ++ evs2) = run (run w evs1) evs2.
Proof. apply foldl_app. Qed.

Lemma run_cons w ev evs : run w (ev :: evs) = run (step w ev) evs.
Proof. done. Qed.

Lemma step_handle w ev : step w ev = (handle viewportToGraph getBBox ev w).1.
Proof. done. Qed.

Lemma step_DownNode w n : step w (DownNode n) = (downNode n w).1.
Proof. done. Qed.

Lemma step_MouseMoveBody w e :
  step w (MouseMoveBody e) = (mousemovebody viewportToGraph e w).1.
Proof. done. Qed.

Lemma step_MouseUp w : step w MouseUp = (mouseup w).1.
Proof. done. Qed.

Lemma step_MouseDown w : step w MouseDown = (mousedown getBBox w).1.
Proof. done. Qed.

Lemma step_ClickStage w event color id :
  step w (ClickStage event color id)
  = (clickStage viewportToGraph event color id w).1.
Proof. done. Qed.

(** *** Node press *)
Lemma downNode_present n w :
  n ∈ nodes (graph w) →
  downNode n w
  = (mkWorld (mkGraph (updateNode n (insert "highlighted" (VBool true))
                                  (g_nodes (graph w)))
                      (g_edges (graph w)))
             (Some n) true (customBBox w), Ok ()).
Proof.
  intros Hn. unfold downNode, mbind, M_bind, onGraph; cbn.
  by rewrite setNodeAttribute_Ok.
Qed.

(** *** Pointer move *)
Lemma mousemovebody_idle e w :
  isDragging w = false ∨ truthy (draggedNode w) = false →
  mousemovebody viewportToGraph e w = (w, Ok ()).
Proof.
  unfold mousemovebody, mbind, M_bind, read; cbn.
  by intros [-> | ->]; rewrite ?orb_true_r.
Qed.

Lemma mousemovebody_dragging e w n :
  isDragging w = true → draggedNode w = Some n → n ≠ EmptyString →
  n ∈ nodes (graph w) →
  mousemovebody viewportToGraph e w
  = (mkWorld
       (mkGraph
          (updateNode n (insert "y" (VNum (cy (viewportToGraph w e))))
             (updateNode n (insert "x" (VNum (cx (viewportToGraph w e))))
                (g_nodes (graph w))))
          (g_edges (graph w)))
       (Some n) true (customBBox w), Ok ()).
Proof.
  intros Hd Hn Hne Hin.
  unfold mousemovebody, mbind, M_bind, read, onGraph; cbn.
  rewrite Hd, Hn; cbn. rewrite bool_decide_eq_false_2 by done; cbn.
  rewrite setNodeAttribute_Ok by done; cbn.
  rewrite setNodeAttribute_Ok; cbn; [by rewrite Hd, Hn|].
  unfold nodes; cbn. by rewrite updateNode_keys.
Qed.

(** *** Pointer release *)
Lemma mouseup_idle w :
  truthy (draggedNode w) = false →
  mouseup w = (mkWorld (graph w) None false (customBBox w), Ok ()).
Proof.
  unfold mouseup, mbind, M_bind, read; cbn. by intros ->.
Qed.

Lemma mouseup_dragging w n :
  draggedNode w = Some n → n ≠ EmptyString → n ∈ nodes (graph w) →
  mouseup w
  = (mkWorld (mkGraph (updateNode n (delete "highlighted") (g_nodes (graph w)))
                      (g_edges (graph w)))
             None false (customBBox w), Ok ()).
Proof.
  intros Hn Hne Hin. unfold mouseup, mbind, M_bind, read, onGraph; cbn.
  rewrite Hn; cbn. rewrite bool_decide_eq_false_2 by done; cbn.
  by rewrite removeNodeAttribute_Ok.
Qed.

(** *** Mouse press *)
Lemma mousedown_eq w :
  mousedown getBBox w
  = (mkWorld (graph w) (draggedNode w) (isDragging w)
             (Some (default (getBBox w) (customBBox w))), Ok ()).
Proof.
  unfold mousedown, mbind, M_bind, read, setCustomBBox; cbn.
  by destruct w as [g d i [b|]].
Qed.

(** *** Stage click *)
Lemma mapM_candidate node ids w :
  ids ⊆ nodes (graph w) →
  mapM (candidate node) ids w
  = (w, Ok (map (λ id, mkCandidate id
                         (squaredDistance node (attributesOf id (graph w))))
                ids)).
Proof.
  induction ids as [|id ids IH]; intros Hsub; [done|].
  assert (id ∈ nodes (graph w)) as Hid by (apply Hsub; left).
  apply lookupNode_is_Some in Hid as [attrs Hattrs].
  cbn [mapM]. unfold mbind, M_bind at 1.
  unfold candidate at 1, askGraph, getNodeAttributes, mbind, M_bind at 1; cbn.
  rewrite Hattrs; cbn. unfold M_bind at 1.
  rewrite IH by (intros x Hx; apply Hsub; by right); cbn.
  unfold attributesOf. by rewrite Hattrs.
Qed.

Lemma closestNodes_eq node w :
  closestNodes node w = (w, Ok (slice02 (sort (candidates node (graph w))))).
Proof.
  unfold closestNodes, mbind, M_bind at 1, read; cbn.
  unfold M_bind. by rewrite mapM_candidate.
Qed.

Lemma candidates_nodeId node g : map nodeId (candidates node g) = nodes g.
Proof.
  unfold candidates. rewrite map_map; cbn. apply map_id.
Qed.

(** The selected candidates are nodes of the graph. *)
Lemma closest_in_graph node g c :
  c ∈ slice02 (sort (candidates node g)) → nodeId c ∈ nodes g.
Proof.
  intros Hc%(subseteq_take 2). rewrite sort_Permutation in Hc.
  rewrite <- (candidates_nodeId node g).
  apply list_elem_of_In, in_map, list_elem_of_In, Hc.
Qed.

Lemma closest_NoDup node g :
  NoDup (nodes g) → NoDup (map nodeId (slice02 (sort (candidates node g)))).
Proof.
  intros Hnd. change (NoDup (nodeId <$> slice02 (sort (candidates node g)))).
  unfold slice02. rewrite fmap_take. eapply sublist_NoDup; [|apply sublist_take].
  rewrite sort_Permutation. by rewrite <- (candidates_nodeId node g) in Hnd.
Qed.

(** Adding the edges one after the other: the edges added are those
    to a prefix of the list, the whole list unless an [addEdge] throws. *)
Lemma forEach_addEdge_shape id cs w :
  ∃ k, (forEach (λ e, onGraph (addEdge id (nodeId e) ∅)) cs w).1
       = mkWorld (mkGraph (g_nodes (graph w))
                          (g_edges (graph w)
                           ++ map (λ c, mkEdge id (nodeId c) ∅) (take k cs)))
                 (draggedNode w) (isDragging w) (customBBox w).
Proof.
  revert w. induction cs as [|c cs IH]; intros w.
  - exists 0. destruct w as [[ns es] d i b]; cbn. by rewrite app_nil_r.
  - cbn [forEach]. unfold mbind, M_bind at 1, onGraph at 1.
    destruct (addEdge id (nodeId c) ∅ (graph w)) as [g'|err] eqn:Hadd.
    + apply addEdge_inv in Hadd as (_ & _ & ->).
      destruct (IH (mkWorld
                      (mkGraph (g_nodes (graph w))
                         (g_edges (graph w) ++ [mkEdge id (nodeId c) ∅]))
                      (draggedNode w) (isDragging w) (customBBox w)))
        as [k Hk].
      exists (S k). rewrite Hk; cbn. by rewrite <- app_assoc.
    + exists 0. destruct w as [[ns es] d i b]; cbn. by rewrite app_nil_r.
Qed.

Lemma forEach_addEdge_Ok id cs w :
  id ∈ nodes (graph w) →
  (∀ c, c ∈ cs → nodeId c ∈ nodes (graph w)) →
  NoDup (map nodeId cs) →
  (∀ e c, e ∈ g_edges (graph w) → c ∈ cs → source e = id →
          target e ≠ nodeId c) →
  forEach (λ e, onGraph (addEdge id (nodeId e) ∅)) cs w
  = (mkWorld (mkGraph (g_nodes (graph w))
                      (g_edges (graph w)
                       ++ map (λ c, mkEdge id (nodeId c) ∅) cs))
             (draggedNode w) (isDragging w) (customBBox w), Ok ()).
Proof.
  revert w. induction cs as [|c cs IH]; intros w Hid Hcs Hnd Hno.
  - destruct w as [[ns es] d i b]; cbn. by rewrite app_nil_r.
  - cbn [forEach]. unfold mbind, M_bind at 1, onGraph at 1.
    apply NoDup_cons in Hnd as [Hc Hnd].
    rewrite addEdge_Ok; [|done|apply Hcs; left|].
    2:{ intros e He. apply (Hno e c He). left. }
    rewrite IH; cbn; try done.
    + by rewrite <- app_assoc.
    + intros c' Hc'. apply Hcs. by right.
    + intros e c' [He| ->%list_elem_of_singleton]%elem_of_app Hc' Hs.
      * apply (Hno e c'); [done | by right | done].
      * cbn. intros Heq. apply Hc. rewrite Heq.
        apply list_elem_of_In, in_map, list_elem_of_In, Hc'.
Qed.

(** The handler, with the monad unfolded. *)
Lemma clickStage_unfold event color id w :
  let node := newNode (viewportToGraph w event) color in
  clickStage viewportToGraph event color id w
  = match addNode id node (graph w) with
    | Ok g' =>
        forEach (λ e, onGraph (addEdge id (nodeId e) ∅))
          (slice02 (sort (candidates node (graph w))))
          (mkWorld g' (draggedNode w) (isDragging w) (customBBox w))
    | Throw err => (w, Throw err)
    end.
Proof.
  intros node. unfold clickStage, mbind, M_bind at 1; cbn.
  unfold M_bind at 1. rewrite closestNodes_eq.
  unfold M_bind at 1, onGraph at 1. fold node.
  by destruct (addNode id node (graph w)).
Qed.

(** What a stage click does to the page, whatever the state. *)
Lemma clickStage_shape event color id w :
  let node := newNode (viewportToGraph w event) color in
  let w' := (clickStage viewportToGraph event color id w).1 in
  draggedNode w' = draggedNode w ∧ isDragging w' = isDragging w
  ∧ customBBox w' = customBBox w
  ∧ (graph w' = graph w
     ∨ (id ∉ nodes (graph w))
       ∧ ∃ k, graph w'
              = mkGraph (g_nodes (graph w) ++ [(id, node)])
                  (g_edges (graph w)
                   ++ map (λ c, mkEdge id (nodeId c) ∅)
                        (take k (slice02 (sort (candidates node (graph w))))))).
Proof.
  intros node w'. subst w'. rewrite clickStage_unfold. fold node.
  destruct (addNode id node (graph w)) as [g'|err] eqn:Hadd; cbn;
    [|by repeat split; try left].
  apply addNode_inv in Hadd as [Hfresh ->].
  match goal with |- context [forEach ?f ?cs ?w0] =>
    destruct (forEach_addEdge_shape id cs w0) as [k Hk] end.
  rewrite Hk; cbn. repeat split; try done. right. split; [done|]. by exists k.
Qed.

(** What a stage click does when [uuid()] is fresh, as it promises, and
    the store is well formed. *)
Lemma clickStage_Ok event color id w :
  graph_wf (graph w) → id ∉ nodes (graph w) →
  let node := newNode (viewportToGraph w event) color in
  clickStage viewportToGraph event color id w
  = (mkWorld
       (mkGraph (g_nodes (graph w) ++ [(id, node)])
          (g_edges (graph w)
           ++ map (λ c, mkEdge id (nodeId c) ∅)
                (slice02 (sort (candidates node (graph w))))))
       (draggedNode w) (isDragging w) (customBBox w), Ok ()).
Proof.
  intros [Hnd Hclosed] Hfresh node. rewrite clickStage_unfold. fold node.
  rewrite addNode_Ok by done.
  rewrite forEach_addEdge_Ok; cbn; [done| | | |].
  - unfold nodes; cbn. rewrite fmap_app. apply elem_of_app. right. by left.
  - intros c Hc. unfold nodes; cbn. rewrite fmap_app. apply elem_of_app.
    left. by eapply closest_in_graph.
  - by apply closest_NoDup.
  - intros e c He _ Hs Ht. apply Hfresh. rewrite <- Hs. by apply Hclosed.
Qed.

(** *** Handlers that throw *)
Lemma downNode_absent n w :
  n ∉ nodes (graph w) →
  downNode n w
  = (mkWorld (graph w) (Some n) true (customBBox w), Throw NotFoundGraphError).
Proof.
  intros Hn%hasNode_false.
  unfold downNode, mbind, M_bind, onGraph, setNodeAttribute; cbn.
  by rewrite Hn.
Qed.

Lemma mousemovebody_absent e w n :
  isDragging w = true → draggedNode w = Some n → n ≠ EmptyString →
  n ∉ nodes (graph w) →
  mousemovebody viewportToGraph e w = (w, Throw NotFoundGraphError).
Proof.
  intros Hd Hn Hne Hin%hasNode_false.
  unfold mousemovebody, mbind, M_bind, read, onGraph, setNodeAttribute; cbn.
  rewrite Hd, Hn; cbn. rewrite bool_decide_eq_false_2 by done; cbn.
  by rewrite Hin.
Qed.

Lemma mouseup_absent w n :
  draggedNode w = Some n → n ≠ EmptyString → n ∉ nodes (graph w) →
  mouseup w = (w, Throw NotFoundGraphError).
Proof.
  intros Hn Hne Hin%hasNode_false.
  unfold mouseup, mbind, M_bind, read, onGraph, removeNodeAttribute; cbn.
  rewrite Hn; cbn. rewrite bool_decide_eq_false_2 by done; cbn.
  by rewrite Hin.
Qed.

Lemma truthy_Some n : truthy (Some n) = true ↔ n ≠ EmptyString.
Proof.
  unfold truthy. rewrite negb_true_iff. apply bool_decide_eq_false.
Qed.

Lemma truthy_false d : truthy d = false ↔ d = None ∨ d = Some EmptyString.
Proof.
  destruct d as [n|]; cbn; [|by split; [left|]].
  rewrite negb_false_iff, bool_decide_eq_true.
  split; [by intros ->; right | by intros [?|[= ->]]].
Qed.

(** *** One event

    An event leaves the graph alone, rewrites the attributes of one
    existing node, or (a stage click) appends one node and edges from it
    to selected existing nodes. *)
Lemma step_graph w ev :
  let w' := step w ev in
  graph w' = graph w
  ∨ (∃ key f, key ∈ nodes (graph w)
       ∧ graph w' = mkGraph (updateNode key f (g_nodes (graph w)))
                            (g_edges (graph w)))
  ∨ (∃ event color id k,
       ev = ClickStage event color id ∧ (id ∉ nodes (graph w))
       ∧ let node := newNode (viewportToGraph w event) color in
         graph w'
         = mkGraph (g_nodes (graph w) ++ [(id, node)])
             (g_edges (graph w)
              ++ map (λ c, mkEdge id (nodeId c) ∅)
                   (take k (slice02 (sort (candidates node (graph w))))))).
Proof.
  rewrite step_handle. destruct ev as [n|e| | |event color id]; cbn.
  - destruct (decide (n ∈ nodes (graph w))) as [Hn|Hn].
    + rewrite downNode_present by done. right; left. eauto.
    + rewrite downNode_absent by done. by left.
  - destruct (isDragging w) eqn:Hd;
      [|rewrite mousemovebody_idle by (by left); by left].
    destruct (draggedNode w) as [n|] eqn:Hdn;
      [|rewrite mousemovebody_idle by (right; by rewrite Hdn); by left].
    destruct (decide (n = EmptyString)) as [->|Hne];
      [rewrite mousemovebody_idle by (right; by rewrite Hdn); by left|].
    destruct (decide (n ∈ nodes (graph w))) as [Hn|Hn].
    + rewrite (mousemovebody_dragging e w n) by done; cbn.
      rewrite updateNode_updateNode. right; left. eauto.
    + rewrite (mousemovebody_absent e w n) by done. by left.
  - destruct (draggedNode w) as [n|] eqn:Hdn;
      [|rewrite mouseup_idle by (by rewrite Hdn); by left].
    destruct (decide (n = EmptyString)) as [->|Hne];
      [rewrite mouseup_idle by (by rewrite Hdn); by left|].
    destruct (decide (n ∈ nodes (graph w))) as [Hn|Hn].
    + rewrite (mouseup_dragging w n) by done. right; left. eauto.
    + rewrite (mouseup_absent w n) by done. by left.
  - rewrite mousedown_eq. by left.
  - destruct (clickStage_shape event color id w) as (_ & _ & _ & [Hg|[Hf [k Hg]]]).
    + by left.
    + right; right. exists event, color, id, k. eauto.
Qed.

(** Only a mouse press touches the custom bounding box. *)
Lemma step_customBBox w ev :
  customBBox (step w ev)
  = match ev with
    | MouseDown => Some (default (getBBox w) (customBBox w))
    | _ => customBBox w
    end.
Proof.
  rewrite step_handle. destruct ev as [n|e| | |event color id]; cbn.
  - destruct (decide (n ∈ nodes (graph w))) as [Hn|Hn];
      [by rewrite downNode_present | by rewrite downNode_absent].
  - destruct (isDragging w) eqn:Hd;
      [|by rewrite mousemovebody_idle by (by left)].
    destruct (draggedNode w) as [n|] eqn:Hdn;
      [|by rewrite mousemovebody_idle by (right; by rewrite Hdn)].
    destruct (decide (n = EmptyString)) as [->|Hne];
      [by rewrite mousemovebody_idle by (right; by rewrite Hdn)|].
    destruct (decide (n ∈ nodes (graph w))) as [Hn|Hn];
      [by rewrite (mousemovebody_dragging e w n)
      |by rewrite (mousemovebody_absent e w n)].
  - destruct (draggedNode w) as [n|] eqn:Hdn;
      [|by rewrite mouseup_idle by (by rewrite Hdn)].
    destruct (decide (n = EmptyString)) as [->|Hne];
      [by rewrite mouseup_idle by (by rewrite Hdn)|].
    destruct (decide (n ∈ nodes (graph w))) as [Hn|Hn];
      [by rewrite (mouseup_dragging w n) | by rewrite (mouseup_absent w n)].
  - by rewrite mousedown_eq.
  - by destruct (clickStage_shape event color id w) as (_ & _ & -> & _).
Qed.

End ControllerFacts.

(** ** Traces *)
Section TraceFacts.
Context {num : Type} `{!Number num}.
Variable viewportToGraph : World num → Coordinates num → Coordinates num.
Variable getBBox : World num → BBox num.
Implicit Types (w : World num) (g : Graph num) (ev : Event num).

Local Abbreviation step := (step viewportToGraph getBBox).
Local Abbreviation run := (run viewportToGraph getBBox).
Local Abbreviation accepts := (accepts viewportToGraph getBBox).

(** A property kept by every allowed event holds along every accepted
    trace. *)
Lemma accepts_invariant (allowed : World num → Event num → bool)
    (Inv : World num → Prop) :
  (∀ w ev, Inv w → allowed w ev = true → Inv (step w ev)) →
  ∀ evs w, Inv w → accepts allowed w evs = true → Inv (run w evs).
Proof.
  intros Hstep. induction evs as [|ev evs IH]; intros w Hw Hacc; [done|].
  cbn in Hacc. apply andb_true_iff in Hacc as [Hev Hacc].
  rewrite run_cons. apply IH; [by apply Hstep | done].
Qed.

(** A property kept by every event holds after every trace. *)
Lemma run_invariant (Inv : World num → Prop) :
  (∀ w ev, Inv w → Inv (step w ev)) →
  ∀ evs w, Inv w → Inv (run w evs).
Proof.
  intros Hstep. induction evs as [|ev evs IH]; intros w Hw; [done|].
  rewrite run_cons. by apply IH, Hstep.
Qed.

Lemma sequential_emittable w ev : sequential w ev = true → emittable w ev = true.
Proof. unfold sequential. by intros [? _]%andb_true_iff. Qed.

(** *** Nodes are only ever added, at the end. *)
Lemma step_nodes_prefix w ev :
  nodes (graph w) `prefix_of` nodes (graph (step w ev)).
Proof.
  destruct (step_graph viewportToGraph getBBox w ev)
    as [->|[(key & f & _ & ->)|(event & color & id & k & _ & _ & ->)]].
  - done.
  - unfold nodes; cbn. by rewrite updateNode_keys.
  - unfold nodes; cbn. rewrite fmap_app. by apply prefix_app_r.
Qed.

(** *** The store stays well formed. *)
Lemma step_NoDup w ev :
  NoDup (nodes (graph w)) → NoDup (nodes (graph (step w ev))).
Proof.
  intros Hnd.
  destruct (step_graph viewportToGraph getBBox w ev)
    as [->|[(key & f & _ & ->)|(event & color & id & k & _ & Hid & ->)]].
  - done.
  - unfold nodes; cbn. by rewrite updateNode_keys.
  - unfold nodes; cbn. rewrite fmap_app. apply NoDup_app.
    split; [done|]. split; [|apply NoDup_singleton].
    by intros x Hx ->%list_elem_of_singleton.
Qed.

Lemma step_edgesClosed w ev :
  edgesClosed (graph w) → edgesClosed (graph (step w ev)).
Proof.
  intros Hcl.
  destruct (step_graph viewportToGraph getBBox w ev)
    as [->|[(key & f & _ & ->)|(event & color & id & k & _ & Hid & ->)]].
  - done.
  - intros e He. unfold nodes; cbn. rewrite updateNode_keys. by apply Hcl.
  - intros e. unfold nodes; cbn. rewrite fmap_app, !elem_of_app.
    intros [He|He].
    + destruct (Hcl e He). by split; left.
    + apply list_elem_of_In, in_map_iff in He as (c & <- & Hc); cbn.
      split; [right; by left|]. left.
      apply list_elem_of_In, (subseteq_take k) in Hc.
      by eapply closest_in_graph.
Qed.

Lemma step_graph_wf w ev :
  graph_wf (graph w) → graph_wf (graph (step w ev)).
Proof.
  intros [? ?]. split; [by apply step_NoDup | by apply step_edgesClosed].
Qed.

(** *** Node keys are never empty along emitted traces. *)
Lemma is_uuid_nonempty id : is_uuid id = true → id ≠ EmptyString.
Proof. unfold is_uuid. by intros Hlen%bool_decide_eq_true ->. Qed.

Lemma step_nonempty w ev :
  EmptyString ∉ nodes (graph w) → emittable w ev = true →
  EmptyString ∉ nodes (graph (step w ev)).
Proof.
  intros Hne Hev.
  destruct (step_graph viewportToGraph getBBox w ev)
    as [->|[(key & f & _ & ->)|(event & color & id & k & -> & Hid & ->)]].
  - done.
  - unfold nodes; cbn. by rewrite updateNode_keys.
  - unfold nodes; cbn. rewrite fmap_app, elem_of_app.
    intros [?|Hid'%list_elem_of_singleton]; [done|].
    cbn in Hev. by apply is_uuid_nonempty in Hev.
Qed.

(** *** The custom bounding box *)
Lemma run_customBBox_kept evs w :
  MouseDown ∉ evs → customBBox (run w evs) = customBBox w.
Proof.
  revert w. induction evs as [|ev evs IH]; intros w Hno; [done|].
  apply not_elem_of_cons in Hno as [Hev Hno].
  rewrite run_cons, IH, step_customBBox by done. by destruct ev.
Qed.

Lemma run_customBBox_fixed evs w b :
  customBBox w = Some b → customBBox (run w evs) = Some b.
Proof.
  revert w. induction evs as [|ev evs IH]; intros w Hb; [done|].
  rewrite run_cons. apply IH. rewrite step_customBBox, Hb. by destruct ev.
Qed.

End TraceFacts.

(** ** The seed *)
Section SeedFacts.
Context {num : Type} `{!Number num}.
Variable arrange : nat → nat → num * num.

Lemma seed_nodes :
  nodes (seedGraph arrange)
  = ["John"; "Mary"; "Suzan"; "Nantes"; "New-York"; "Sushis"; "Falafels";
     "Kouign Amann"].
Proof. vm_compute. reflexivity. Qed.

Lemma seed_edges :
  map (λ e, (source e, target e)) (g_edges (seedGraph arrange))
  = [("John", "Mary"); ("Mary", "Suzan"); ("Mary", "Nantes");
     ("John", "New-York"); ("Suzan", "New-York"); ("John", "Falafels");
     ("Mary", "Sushis"); ("Suzan", "Kouign Amann")].
Proof. vm_compute. reflexivity. Qed.

Lemma seed_highlightedNodes : highlightedNodes (seedGraph arrange) = [].
Proof. vm_compute. reflexivity. Qed.

Lemma seed_NoDup : NoDup (nodes (seedGraph arrange)).
Proof. rewrite seed_nodes. compute_done. Qed.

Lemma seed_nonempty : EmptyString ∉ nodes (seedGraph arrange).
Proof. rewrite seed_nodes. compute_done. Qed.

Lemma seed_edgesClosed : edgesClosed (seedGraph arrange).
Proof.
  intros e He.
  assert ((source e, target e)
          ∈ map (λ e, (source e, target e)) (g_edges (seedGraph arrange)))
    as Hst by (apply list_elem_of_In, (in_map (λ e, (source e, target e))),
                 list_elem_of_In, He).
  rewrite seed_edges in Hst. rewrite seed_nodes.
  repeat (apply elem_of_cons in Hst as [[= -> ->]|Hst];
          [split; compute_done|]).
  by apply elem_of_nil in Hst.
Qed.

Lemma seed_graph_wf : graph_wf (seedGraph arrange).
Proof. split; [apply seed_NoDup | apply seed_edgesClosed]. Qed.

End SeedFacts.

(** * Main theorems *)
Section Page.
Context {num : Type} `{!Number num}.
Variable viewportToGraph : World num → Coordinates num → Coordinates num.
Variable getBBox : World num → BBox num.
Variable arrange : nat → nat → num * num.
Implicit Types (w : World num) (g : Graph num) (ev : Event num).

Local Abbreviation handle := (handle viewportToGraph getBBox).
Local Abbreviation step := (step viewportToGraph getBBox).
Local Abbreviation run := (run viewportToGraph getBBox).
Local Abbreviation accepts := (accepts viewportToGraph getBBox).
Local Abbreviation initialWorld := (initialWorld arrange).
Local Abbreviation reachable := (reachable viewportToGraph getBBox arrange).

(** C5: a pointer move received while [isDragging] is false or while
    [draggedNode] is unset changes nothing at all, so no node attribute
    is mutated; a pointer release received while no drag is active (no
    dragged node) leaves the graph store unchanged, and in the idle state
    it changes nothing at all.  Neither raises an error. *)
Theorem pointer_events_without_drag_are_noops w e :
  (isDragging w = false ∨ draggedNode w = None →
     handle (MouseMoveBody e) w = (w, Ok ()))
  ∧ (draggedNode w = None →
       (handle MouseUp w).2 = Ok () ∧ graph (step w MouseUp) = graph w)
  ∧ (isDragging w = false → draggedNode w = None →
       handle MouseUp w = (w, Ok ())).
Proof.
  split; [|split].
  - intros [Hd|Hn]; cbn; apply mousemovebody_idle; [by left|].
    right. by rewrite Hn.
  - intros Hn. rewrite step_handle; cbn.
    by rewrite mouseup_idle by (by rewrite Hn).
  - intros Hd Hn; cbn. rewrite mouseup_idle by (by rewrite Hn).
    destruct w; cbn in *; by subst.
Qed.

(** C10: a pointer move received during an active drag of node [n]
    keeps the node keys and their order, keeps every attribute object
    stored under another key, changes at most the attributes ["x"] and
    ["y"] of the dragged node, and leaves the edges, [isDragging],
    [draggedNode] and the custom bounding box as they were. *)
Theorem pointer_move_changes_only_position w n e :
  isDragging w = true → draggedNode w = Some n →
  let w' := step w (MouseMoveBody e) in
  Forall2 (λ old new,
             old.1 = new.1
             ∧ (old.1 ≠ n → old.2 = new.2)
             ∧ ∀ name, name ≠ "x" → name ≠ "y" →
                       new.2 !! name = old.2 !! name)
          (g_nodes (graph w)) (g_nodes (graph w'))
  ∧ g_edges (graph w') = g_edges (graph w)
  ∧ isDragging w' = isDragging w
  ∧ draggedNode w' = draggedNode w
  ∧ customBBox w' = customBBox w.
Proof.
  intros Hd Hn w'. subst w'. rewrite step_handle; cbn.
  assert (Forall2 (λ old new : string * gmap string (value num),
             old.1 = new.1 ∧ (old.1 ≠ n → old.2 = new.2)
             ∧ ∀ name, name ≠ "x" → name ≠ "y" →
                       new.2 !! name = old.2 !! name)
          (g_nodes (graph w)) (g_nodes (graph w))) as Hsame.
  { apply Forall_Forall2_diag, Forall_forall. by intros. }
  destruct (decide (n = EmptyString)) as [->|Hne];
    [by rewrite mousemovebody_idle by (right; by rewrite Hn)|].
  destruct (decide (n ∈ nodes (graph w))) as [Hin|Hin];
    [|by rewrite (mousemovebody_absent _ e w n)].
  rewrite (mousemovebody_dragging _ e w n) by done; cbn.
  rewrite updateNode_updateNode, Hd, Hn. split; [|done].
  eapply Forall2_impl.
  - apply (updateNode_Forall2 n _
             (λ a b, ∀ name, name ≠ "x" → name ≠ "y" → b !! name = a !! name)).
    + done.
    + intros a name Hx Hy; cbn. by rewrite !lookup_insert_ne.
  - by intros old new (? & ? & ?).
Qed.

(** C7: in a run from the initial page, as long as no mouse press has
    been received there is no custom bounding box; the first mouse press
    fixes it to the bounding box the renderer computes at that moment,
    and whatever events follow, further mouse presses included, the
    custom bounding box keeps that value. *)
Theorem custom_bbox_captured_once evs1 evs2 :
  MouseDown ∉ evs1 →
  let w1 := run initialWorld evs1 in
  customBBox w1 = None
  ∧ customBBox (run w1 (MouseDown :: evs2)) = Some (getBBox w1).
Proof.
  intros Hno w1. assert (customBBox w1 = None) as Hnone.
  { subst w1. by rewrite run_customBBox_kept. }
  split; [done|]. rewrite run_cons.
  apply run_customBBox_fixed. by rewrite step_customBBox, Hnone.
Qed.

(** C9: the edges a stage click adds all start at the key drawn for
    the new node and end at a node that was in the graph before the
    click, while the new key was not: no such edge is a self-loop and the
    new node is not among its own neighbours. *)
Theorem stage_click_creates_no_self_loop w event color id :
  let w' := step w (ClickStage event color id) in
  ∃ new, g_edges (graph w') = (g_edges (graph w) ++ new)%list
         ∧ ∀ e, e ∈ new →
                source e = id
                ∧ target e ∈ nodes (graph w)
                ∧ (id ∉ nodes (graph w))
                ∧ target e ≠ source e.
Proof.
  intros w'. subst w'.
  destruct (step_graph viewportToGraph getBBox w (ClickStage event color id))
    as [Hg|[(key & f & _ & Hg)|(ev' & col' & id' & k & [= <- <- <-] & Hid & Hg)]].
  - exists []. rewrite Hg, app_nil_r. split; [done|]. by intros e ?%elem_of_nil.
  - exists []. rewrite Hg; cbn. rewrite app_nil_r.
    split; [done|]. by intros e ?%elem_of_nil.
  - eexists. rewrite Hg; cbn. split; [done|].
    intros e (c & <- & Hc)%list_elem_of_In%in_map_iff; cbn.
    assert (nodeId c ∈ nodes (graph w)) as Hin.
    { apply list_elem_of_In, (subseteq_take k) in Hc.
      by eapply closest_in_graph. }
    repeat split; try done. by intros <-.
Qed.

(** C8: after any sequence of events from the initial page every edge
    joins two nodes that are in the graph, and no event removes a node:
    the nodes before an event are an initial segment of the nodes after
    it. *)
Theorem edges_join_existing_nodes evs :
  let w := run initialWorld evs in
  (∀ e, e ∈ g_edges (graph w) →
        source e ∈ nodes (graph w) ∧ target e ∈ nodes (graph w))
  ∧ ∀ ev, nodes (graph w) `prefix_of` nodes (graph (step w ev)).
Proof.
  intros w. split; [|intros ev; apply step_nodes_prefix].
  subst w. apply (run_invariant _ _ (λ w, edgesClosed (graph w))).
  - intros w ev. apply step_edgesClosed.
  - exact (seed_edgesClosed arrange).
Qed.

(** The store of the page is well formed after any sequence of
    events. *)
Lemma run_graph_wf evs : graph_wf (graph (run initialWorld evs)).
Proof.
  apply (run_invariant _ _ (λ w, graph_wf (graph w))).
  - intros w ev. apply step_graph_wf.
  - exact (seed_graph_wf arrange).
Qed.

(** C2: a stage click on a well-formed store with at least two nodes,
    with a key from [uuid()] that is not in use, completes without
    error, appends exactly one node, and appends exactly two edges, both
    from the new node, to the two distinct existing nodes selected as
    closest. *)
Theorem stage_click_adds_one_node_two_edges w event color id :
  graph_wf (graph w) → id ∉ nodes (graph w) → (2 ≤ order (graph w))%nat →
  let w' := step w (ClickStage event color id) in
  let node := newNode (viewportToGraph w event) color in
  (handle (ClickStage event color id) w).2 = Ok ()
  ∧ g_nodes (graph w') = (g_nodes (graph w) ++ [(id, node)])%list
  ∧ ∃ a b,
      map nodeId (slice02 (sort (candidates node (graph w)))) = [a; b]
      ∧ a ≠ b ∧ a ∈ nodes (graph w) ∧ b ∈ nodes (graph w)
      ∧ g_edges (graph w')
        = (g_edges (graph w) ++ [mkEdge id a ∅; mkEdge id b ∅])%list.
Proof.
  intros Hwf Hfresh Hord w' node. subst w'. rewrite step_handle; cbn.
  rewrite clickStage_Ok by done; cbn. fold node.
  split; [done|]. split; [done|].
  pose proof (slice02_length (sort (candidates node (graph w)))) as Hlen.
  pose proof (closest_NoDup node (graph w) (proj1 Hwf)) as Hnd.
  pose proof (closest_in_graph node (graph w)) as Hin.
  rewrite sort_length in Hlen. unfold candidates in Hlen at 2.
  rewrite length_map in Hlen. unfold nodes in Hlen at 1.
  rewrite length_fmap in Hlen. unfold order in Hord.
  rewrite Nat.min_l in Hlen by done.
  destruct (slice02 (sort (candidates node (graph w)))) as [|ca [|cb [|cc l]]];
    try done.
  exists (nodeId ca), (nodeId cb). cbn in Hnd.
  apply NoDup_cons in Hnd as [Hab _].
  repeat split; try done.
  - intros Heq. apply Hab. rewrite Heq. by left.
  - apply Hin. by left.
  - apply Hin. right. by left.
Qed.

(** C4: a stage click on a well-formed store with fewer than two
    nodes, with a key from [uuid()] that is not in use, completes
    without error, appends exactly one node, and appends one edge from
    the new node to each existing node: one edge when one node existed,
    none when the graph was empty. *)
Theorem stage_click_with_fewer_than_two_nodes w event color id :
  graph_wf (graph w) → id ∉ nodes (graph w) → (order (graph w) < 2)%nat →
  let w' := step w (ClickStage event color id) in
  let node := newNode (viewportToGraph w event) color in
  (handle (ClickStage event color id) w).2 = Ok ()
  ∧ g_nodes (graph w') = (g_nodes (graph w) ++ [(id, node)])%list
  ∧ g_edges (graph w')
    = (g_edges (graph w) ++ map (λ n, mkEdge id n ∅) (nodes (graph w)))%list
  ∧ length (g_edges (graph w'))
    = (length (g_edges (graph w)) + order (graph w))%nat.
Proof.
  intros Hwf Hfresh Hord w' node. subst w'. rewrite step_handle; cbn.
  rewrite clickStage_Ok by done; cbn. fold node.
  split; [done|]. split; [done|].
  assert (slice02 (sort (candidates node (graph w))) = candidates node (graph w))
    as ->.
  { assert (length (candidates node (graph w)) < 2)%nat as Hlen.
    { unfold candidates, nodes. by rewrite length_map, length_fmap. }
    by destruct (candidates node (graph w)) as [|ca [|cb l]];
      cbn in Hlen; try lia. }
  assert (map (λ c, mkEdge id (nodeId c) ∅) (candidates node (graph w))
          = map (λ n, mkEdge id n ∅) (nodes (graph w))) as ->.
  { rewrite <- (candidates_nodeId node (graph w)). by rewrite map_map. }
  split; [done|].
  rewrite length_app, length_map. unfold nodes, order.
  by rewrite length_fmap.
Qed.

(** *** A drag session *)
Lemma moves_keep_session w n ms :
  isDragging w = true → draggedNode w = Some n → n ≠ EmptyString →
  n ∈ nodes (graph w) →
  let w' := run w (map MouseMoveBody ms) in
  isDragging w' = true ∧ draggedNode w' = Some n ∧ n ∈ nodes (graph w').
Proof.
  revert w. induction ms as [|e ms IH]; intros w Hd Hn Hne Hin; [done|].
  cbn [map]. rewrite run_cons. apply IH; try done;
    rewrite step_MouseMoveBody, (mousemovebody_dragging _ e w n) by done;
    cbn; try done.
  unfold nodes; cbn. by rewrite !updateNode_keys.
Qed.

Lemma drag_session w n ms :
  n ≠ EmptyString → n ∈ nodes (graph w) →
  let w' := run w (DownNode n :: map MouseMoveBody ms ++ [MouseUp]) in
  n ∈ nodes (graph w')
  ∧ getNodeAttribute n "highlighted" (graph w') = None
  ∧ isDragging w' = false ∧ draggedNode w' = None
  ∧ ∀ ms0 e, ms = (ms0 ++ [e])%list →
      let wl := run w (DownNode n :: map MouseMoveBody ms0) in
      getNodeAttribute n "x" (graph w')
      = Some (VNum (cx (viewportToGraph wl e)))
      ∧ getNodeAttribute n "y" (graph w')
        = Some (VNum (cy (viewportToGraph wl e))).
Proof.
  intros Hne Hin w'.
  assert (∀ ms', let wl := run w (DownNode n :: map MouseMoveBody ms') in
            isDragging wl = true ∧ draggedNode wl = Some n
            ∧ n ∈ nodes (graph wl)) as Hsession.
  { intros ms'. rewrite run_cons. apply moves_keep_session; try done;
      rewrite step_DownNode, downNode_present by done; cbn; try done.
    unfold nodes; cbn. by rewrite updateNode_keys. }
  assert (∀ ms', run w (DownNode n :: map MouseMoveBody ms' ++ [MouseUp])
                 = step (run w (DownNode n :: map MouseMoveBody ms')) MouseUp)
    as Hlast.
  { intros ms'. by rewrite app_comm_cons, run_app. }
  subst w'. rewrite Hlast.
  destruct (Hsession ms) as (Hd & Hn & Hin').
  rewrite step_MouseUp.
  rewrite (mouseup_dragging
             (run w (DownNode n :: map MouseMoveBody ms)) n) by done.
  cbn [fst graph g_nodes isDragging draggedNode].
  apply lookupNode_is_Some in Hin' as Hattrs. destruct Hattrs as [a Ha].
  split; [|split; [|split; [done|split; [done|]]]].
  - unfold nodes; cbn. by rewrite updateNode_keys.
  - unfold getNodeAttribute; cbn [g_nodes].
    rewrite lookupNode_updateNode_eq, Ha.
    cbn [fmap option_fmap option_map mbind option_bind].
    apply lookup_delete_eq.
  - intros ms0 e ->.
    set (wl := run w (DownNode n :: map MouseMoveBody ms0)).
    destruct (Hsession ms0) as (Hd0 & Hn0 & Hin0). fold wl in Hd0, Hn0, Hin0.
    assert (run w (DownNode n :: map MouseMoveBody (ms0 ++ [e]))
            = step wl (MouseMoveBody e)) as Hrun.
    { subst wl. by rewrite map_app, app_comm_cons, run_app. }
    rewrite Hrun, step_MouseMoveBody.
    rewrite (mousemovebody_dragging _ e wl n) by done.
    cbn [fst graph g_nodes].
    apply lookupNode_is_Some in Hin0 as [a0 Ha0].
    unfold getNodeAttribute; cbn [g_nodes].
    rewrite !lookupNode_updateNode_eq, Ha0.
    cbn [fmap option_fmap option_map mbind option_bind].
    rewrite !lookup_delete_ne by done.
    rewrite lookup_insert_ne by done.
    by rewrite !lookup_insert_eq.
Qed.

Lemma reachable_nonempty w : reachable w → EmptyString ∉ nodes (graph w).
Proof.
  intros (evs & Hacc & ->).
  apply (accepts_invariant _ _ (@emittable num)
           (λ w, EmptyString ∉ nodes (graph w))); [|exact (seed_nonempty arrange)|done].
  intros w ev. apply step_nonempty.
Qed.

(** C1: from any state the page can reach, a press on a node [n] of
    the graph, followed by pointer moves [ms] and a release, ends with
    the drag session idle and with [n] carrying no [highlighted]
    attribute; when there was at least one move, the ["x"] and ["y"]
    attributes of [n] are the graph coordinates that [viewportToGraph]
    gave for the last move when that move was received. *)
Theorem drag_ends_at_last_converted_position w n ms :
  reachable w → n ∈ nodes (graph w) →
  let w' := run w (DownNode n :: map MouseMoveBody ms ++ [MouseUp]) in
  n ∈ nodes (graph w')
  ∧ getNodeAttribute n "highlighted" (graph w') = None
  ∧ isDragging w' = false ∧ draggedNode w' = None
  ∧ ∀ ms0 e, ms = (ms0 ++ [e])%list →
      let wl := run w (DownNode n :: map MouseMoveBody ms0) in
      getNodeAttribute n "x" (graph w')
      = Some (VNum (cx (viewportToGraph wl e)))
      ∧ getNodeAttribute n "y" (graph w')
        = Some (VNum (cy (viewportToGraph wl e))).
Proof.
  intros Hreach Hin. apply drag_session; [|done].
  intros ->. by apply (reachable_nonempty w).
Qed.

(** *** The drag session along sequential traces *)
Lemma newNode_not_highlighted (p : Coordinates num) color :
  newNode p color !! "highlighted" = None.
Proof. unfold newNode. by rewrite !lookup_insert_ne, lookup_empty. Qed.

Lemma step_sessionInvariant w ev :
  NoDup (nodes (graph w)) → EmptyString ∉ nodes (graph w) →
  sessionInvariant w → sequential w ev = true →
  sessionInvariant (step w ev).
Proof.
  intros Hnd Hne Hinv Hseq.
  destruct ev as [n|e| | |event color id].
  - (* node press *)
    unfold sequential in Hseq; cbn in Hseq.
    rewrite !andb_true_iff, !negb_true_iff, hasNode_true in Hseq.
    destruct Hseq as (Hin & Hd & _).
    destruct Hinv as [(_ & _ & Hhl)|(Hd' & _)]; [|congruence].
    rewrite step_DownNode, downNode_present by done.
    right; cbn. split; [done|]. exists n. split; [done|]. split.
    + unfold nodes; cbn. by rewrite updateNode_keys.
    + destruct (graph w) as [l es]. unfold nodes in Hin.
      cbn [g_nodes g_edges] in *.
      by apply (highlightedNodes_set n _ l es).
  - (* pointer move *)
    rewrite step_MouseMoveBody.
    destruct Hinv as [(Hd & Hn & Hhl)|(Hd & n & Hn & Hin & Hhl)].
    + rewrite mousemovebody_idle by (by left). left. done.
    + assert (n ≠ EmptyString) as Hnn by (by intros ->).
      rewrite (mousemovebody_dragging _ e w n) by done.
      right; cbn. split; [done|]. exists n. split; [done|]. split.
      * unfold nodes; cbn. by rewrite !updateNode_keys.
      * destruct (graph w) as [l es]. cbn [g_nodes g_edges] in *.
        rewrite <- Hhl.
        etrans; [apply (highlightedNodes_update_frame n _ _ es)|];
          [intros a; by rewrite lookup_insert_ne|].
        apply (highlightedNodes_update_frame n _ _ es).
        intros a. by rewrite lookup_insert_ne.
  - (* pointer release *)
    rewrite step_MouseUp.
    destruct Hinv as [(Hd & Hn & Hhl)|(Hd & n & Hn & Hin & Hhl)].
    + rewrite mouseup_idle by (by rewrite Hn). by left.
    + assert (n ≠ EmptyString) as Hnn by (by intros ->).
      rewrite (mouseup_dragging w n) by done.
      left; cbn. split; [done|]. split; [done|].
      destruct (graph w) as [l es]. unfold nodes in Hnd.
      cbn [g_nodes g_edges] in *.
      by apply (highlightedNodes_remove n l es).
  - (* mouse press *)
    rewrite step_MouseDown, mousedown_eq. exact Hinv.
  - (* stage click *)
    rewrite step_ClickStage.
    destruct (clickStage_shape viewportToGraph event color id w)
      as (Hn' & Hd' & _ & Hg).
    assert (highlightedNodes
              (graph (clickStage viewportToGraph event color id w).1)
            = highlightedNodes (graph w)
            ∧ nodes (graph w)
              ⊆ nodes (graph (clickStage viewportToGraph event color id w).1))
      as [Hhl Hsub].
    { destruct Hg as [->|(_ & k & ->)]; [done|]. split.
      - destruct (graph w) as [l es]. cbn [g_nodes g_edges].
        rewrite highlightedNodes_app. unfold highlightedNodes at 2.
        cbn [g_nodes]. rewrite filter_cons; cbn [snd].
        rewrite newNode_not_highlighted.
        rewrite decide_False by (by intros [? ?]).
        by rewrite filter_nil, app_nil_r.
      - unfold nodes; cbn. rewrite fmap_app. intros x Hx.
        apply elem_of_app. by left. }
    unfold sessionInvariant. rewrite Hn', Hd', Hhl.
    destruct Hinv as [?|(Hd & n & Hn & Hin & Hhl')]; [by left|].
    right. split; [done|]. exists n. auto.
Qed.

Lemma sequential_run_invariant evs :
  accepts sequential initialWorld evs = true →
  sessionInvariant (run initialWorld evs).
Proof.
  intros Hacc.
  apply (accepts_invariant _ _ (@sequential num)
           (λ w, NoDup (nodes (graph w)) ∧ (EmptyString ∉ nodes (graph w))
                 ∧ sessionInvariant w)); [| |done].
  - intros w ev (Hnd & Hne & Hinv) Hseq. split; [by apply step_NoDup|].
    split; [by apply step_nonempty, sequential_emittable|].
    by apply step_sessionInvariant.
  - split; [exact (seed_NoDup arrange)|].
    split; [exact (seed_nonempty arrange)|].
    left. split; [done|]. split; [done|].
    exact (seed_highlightedNodes arrange).
Qed.

(** C6 (amended): along every sequence of events from the initial page
    in which a node is pressed only while no drag is active, at most one
    node carries [highlighted]; while a drag is active it is the dragged
    node, and once the drag has ended no node carries it. *)
Theorem one_highlighted_node_in_sequential_sessions evs :
  accepts sequential initialWorld evs = true →
  let w := run initialWorld evs in
  (length (highlightedNodes (graph w)) ≤ 1)%nat
  ∧ (isDragging w = true →
       ∃ n, draggedNode w = Some n ∧ highlightedNodes (graph w) = [n])
  ∧ (isDragging w = false → highlightedNodes (graph w) = []).
Proof.
  intros Hacc w.
  destruct (sequential_run_invariant evs Hacc)
    as [(Hd & Hn & Hhl)|(Hd & n & Hn & Hin & Hhl)]; fold w in Hd, Hn, Hhl.
  - rewrite Hhl, Hd. split; [cbn; lia|]. by split.
  - rewrite Hhl, Hd. split; [cbn; lia|]. split; [by exists n | done].
Qed.

End Page.

(** ** Nearest neighbours *)
Section Closest.
Context {num : Type} `{!Number num}.
Implicit Types (w : World num) (p : Coordinates num).

Lemma squaredDistance_newNode p color (attrs : gmap string (value num)) :
  squaredDistance (newNode p color) attrs
  = num_add (num_pow2 (num_sub (cx p) (attrNumber attrs "x")))
            (num_pow2 (num_sub (cy p) (attrNumber attrs "y"))).
Proof.
  unfold squaredDistance, newNode. unfold attrNumber at 1 3.
  rewrite !lookup_insert_ne, lookup_insert_eq by done.
  rewrite !lookup_insert_ne, lookup_insert_eq by done. done.
Qed.

Lemma candidates_distance p color w c :
  c ∈ candidates (newNode p color) (graph w) →
  nodeId c ∈ nodes (graph w)
  ∧ distance c
    = num_add
        (num_pow2 (num_sub (cx p)
           (attrNumber (attributesOf (nodeId c) (graph w)) "x")))
        (num_pow2 (num_sub (cy p)
           (attrNumber (attributesOf (nodeId c) (graph w)) "y"))).
Proof.
  unfold candidates.
  intros (id & <- & Hid%list_elem_of_In)%list_elem_of_In%in_map_iff; cbn.
  split; [done|]. apply squaredDistance_newNode.
Qed.

Lemma closestNodes_minimal w (node : gmap string (value num)) :
  let cs := candidates node (graph w) in
  consistent cs = true →
  ∃ sel rest,
    closestNodes node w = (w, Ok sel)
    ∧ sort cs = (sel ++ rest)%list
    ∧ cs ≡ₚ sel ++ rest
    ∧ length sel = 2 `min` order (graph w)
    ∧ (∀ s c, s ∈ sel → c ∈ rest →
              num_gt0 (num_sub (distance s) (distance c)) = false)
    ∧ (∀ a b, sel = [a; b] →
              num_gt0 (num_sub (distance a) (distance b)) = false).
Proof.
  intros cs Hc.
  assert (StronglySorted (λ x y, keeps x y = true) (sort cs)) as Hsorted
    by (by apply (sort_sorted cs)).
  exists (take 2 (sort cs)), (drop 2 (sort cs)).
  split; [apply closestNodes_eq|].
  split; [by rewrite take_drop|].
  split; [by rewrite take_drop, sort_Permutation|].
  split.
  { rewrite length_take, sort_length. unfold cs, candidates, nodes, order.
    by rewrite length_map, length_fmap. }
  split.
  - intros s c Hs Hcr.
    pose proof (sorted_take_drop 2 (sort cs) s c Hsorted Hs Hcr) as Hk.
    unfold keeps, compareFn in Hk. by apply negb_true_iff in Hk.
  - intros a b Hab.
    destruct (sort cs) as [|a' [|b' l]]; try done.
    cbn in Hab. injection Hab as -> ->.
    apply StronglySorted_inv in Hsorted as [_ Hall].
    apply Forall_cons in Hall as [Hk _].
    unfold keeps, compareFn in Hk. by apply negb_true_iff in Hk.
Qed.

End Closest.

(** ** The integer instance *)

Lemma intnum_keeps (a b : Candidate intnum) x y :
  distance a = Int x → distance b = Int y →
  keeps a b = true ↔ (x ≤ y)%Z.
Proof.
  intros Ha Hb. unfold keeps, compareFn. rewrite Ha, Hb; cbn.
  rewrite negb_true_iff, bool_decide_eq_false. lia.
Qed.

(** On integer distances the comparator is a total preorder: only NaN
    can make it inconsistent. *)
Lemma intnum_consistent (cs : list (Candidate intnum)) :
  Forall (λ c, distance c ≠ NotANumber) cs → consistent cs = true.
Proof.
  rewrite Forall_forall. intros Hnum.
  assert (∀ c, In c cs → ∃ z, distance c = Int z) as Hint.
  { intros c Hc%list_elem_of_In. specialize (Hnum c Hc).
    destruct (distance c) as [z|]; [by exists z | done]. }
  unfold consistent. apply andb_true_iff. split.
  - apply forallb_forall. intros a [x Ha]%Hint.
    apply forallb_forall. intros b [y Hb]%Hint.
    apply orb_true_iff.
    rewrite (intnum_keeps a b x y), (intnum_keeps b a y x) by done. lia.
  - apply forallb_forall. intros a [x Ha]%Hint.
    apply forallb_forall. intros b [y Hb]%Hint.
    apply forallb_forall. intros c [z Hc]%Hint.
    destruct (keeps a b) eqn:Hab; [|done].
    destruct (keeps b c) eqn:Hbc; [|done]. cbn.
    rewrite (intnum_keeps a b x y) in Hab by done.
    rewrite (intnum_keeps b c y z) in Hbc by done.
    apply (intnum_keeps a c x z); [done|done|lia].
Qed.

(** With a NaN among the distances it is not one: NaN compares as a tie
    with both 1 and 0. *)
Example nan_breaks_consistency :
  consistent [mkCandidate "a" (Int 1); mkCandidate "b" NotANumber;
              mkCandidate "c" (Int 0)] = false.
Proof. reflexivity. Qed.

(** C3: on a stage click the distance recorded for every node is the
    squared Euclidean distance between the converted click point and the
    node's position, and, the comparator being a total preorder on these
    distances, the neighbours selected are the first two of the nodes in
    ascending order of distance: no node left out is closer than a
    selected one.  With nodes at (0,0), (10,0) and (0,10) and a click
    converted to (1,0) the nodes selected are those at (0,0) and (10,0),
    and the two new edges go to them. *)
Theorem closest_two_nodes_are_selected :
  (∀ (num : Type) (N : Number num) (w : World num) (p : Coordinates num)
     (color : string),
     let node := newNode p color in
     let cs := candidates node (graph w) in
     consistent cs = true →
     (∀ c, c ∈ cs →
        nodeId c ∈ nodes (graph w)
        ∧ distance c
          = num_add
              (num_pow2 (num_sub (cx p)
                 (attrNumber (attributesOf (nodeId c) (graph w)) "x")))
              (num_pow2 (num_sub (cy p)
                 (attrNumber (attributesOf (nodeId c) (graph w)) "y"))))
     ∧ ∃ sel rest,
         closestNodes node w = (w, Ok sel)
         ∧ sort cs = (sel ++ rest)%list
         ∧ cs ≡ₚ sel ++ rest
         ∧ length sel = 2 `min` order (graph w)
         ∧ (∀ s c, s ∈ sel → c ∈ rest →
                   num_gt0 (num_sub (distance s) (distance c)) = false)
         ∧ (∀ a b, sel = [a; b] →
                   num_gt0 (num_sub (distance a) (distance b)) = false))
  ∧ (closestNodes (newNode (mkCoordinates (Int 1) (Int 0)) "#5db346")
                  Demo.triangleWorld).2
    = Ok [mkCandidate "a" (Int 1); mkCandidate "b" (Int 81)]
  ∧ map (λ e, (source e, target e))
        (g_edges (graph (Demo.run Demo.triangleWorld
           [ClickStage (mkCoordinates (Int 1) (Int 0)) "#5db346" Demo.uuid1])))
    = [(Demo.uuid1, "a"); (Demo.uuid1, "b")].
Proof.
  split; [|split; vm_compute; reflexivity].
  intros num N w p color node cs Hc. split.
  - intros c Hin. by apply (candidates_distance p color w c).
  - by apply closestNodes_minimal.
Qed.

(** * The theorems on concrete pages *)

(** Dragging "John" over (3,4) to (5,6) on the seeded page. *)
Lemma drag_ends_at_last_converted_position_witness :
  Demo.reachable Demo.world0
  ∧ "John" ∈ nodes (graph Demo.world0)
  ∧ let w' := Demo.run Demo.world0
                [DownNode "John"; MouseMoveBody (Demo.point 3 4);
                 MouseMoveBody (Demo.point 5 6); MouseUp] in
    getNodeAttribute "John" "x" (graph w') = Some (VNum (Int 5))
    ∧ getNodeAttribute "John" "y" (graph w') = Some (VNum (Int 6))
    ∧ getNodeAttribute "John" "highlighted" (graph w') = None.
Proof.
  assert (Demo.reachable Demo.world0) as Hreach
    by (exists []; split; reflexivity).
  assert ("John" ∈ nodes (graph Demo.world0)) as Hin by compute_done.
  split; [exact Hreach|]. split; [exact Hin|].
  destruct (drag_ends_at_last_converted_position
              Demo.viewportToGraph Demo.getBBox Demo.arrange Demo.world0
              "John" [Demo.point 3 4; Demo.point 5 6] Hreach Hin)
    as (_ & Hhl & _ & _ & Hpos).
  destruct (Hpos [Demo.point 3 4] (Demo.point 5 6) eq_refl) as [Hx Hy].
  split; [exact Hx|]. split; [exact Hy | exact Hhl].
Defined.

(** A stage click on the seeded page. *)
Lemma stage_click_adds_one_node_two_edges_witness :
  graph_wf (graph Demo.world0)
  ∧ (Demo.uuid1 ∉ nodes (graph Demo.world0))
  ∧ (2 ≤ order (graph Demo.world0))%nat
  ∧ let w' := Demo.step Demo.world0
                (ClickStage (Demo.point 1 0) "#5db346" Demo.uuid1) in
    nodes (graph w') = (nodes (graph Demo.world0) ++ [Demo.uuid1])%list
    ∧ ∃ a b, a ≠ b
        ∧ g_edges (graph w')
          = (g_edges (graph Demo.world0)
             ++ [mkEdge Demo.uuid1 a ∅; mkEdge Demo.uuid1 b ∅])%list.
Proof.
  assert (graph_wf (graph Demo.world0)) as Hwf
    by exact (seed_graph_wf Demo.arrange).
  assert (Demo.uuid1 ∉ nodes (graph Demo.world0)) as Hfresh by compute_done.
  assert (2 ≤ order (graph Demo.world0))%nat as Hord by (vm_compute; lia).
  split; [exact Hwf|]. split; [exact Hfresh|]. split; [exact Hord|].
  destruct (stage_click_adds_one_node_two_edges
              Demo.viewportToGraph Demo.getBBox Demo.world0
              (Demo.point 1 0) "#5db346" Demo.uuid1 Hwf Hfresh Hord)
    as (_ & Hnodes & a & b & _ & Hab & _ & _ & Hedges).
  split.
  - unfold nodes. rewrite Hnodes, fmap_app. reflexivity.
  - exists a, b. split; [exact Hab | exact Hedges].
Defined.

(** A stage click on a graph with one node. *)
Lemma stage_click_with_fewer_than_two_nodes_witness :
  graph_wf (graph Demo.singletonWorld)
  ∧ (Demo.uuid1 ∉ nodes (graph Demo.singletonWorld))
  ∧ (order (graph Demo.singletonWorld) < 2)%nat
  ∧ g_edges (graph (Demo.step Demo.singletonWorld
                      (ClickStage (Demo.point 1 0) "#5db346" Demo.uuid1)))
    = [mkEdge Demo.uuid1 "a" ∅].
Proof.
  assert (graph_wf (graph Demo.singletonWorld)) as Hwf.
  { split; [compute_done|]. intros e He. by apply elem_of_nil in He. }
  assert (Demo.uuid1 ∉ nodes (graph Demo.singletonWorld)) as Hfresh
    by compute_done.
  assert (order (graph Demo.singletonWorld) < 2)%nat as Hord
    by (vm_compute; lia).
  split; [exact Hwf|]. split; [exact Hfresh|]. split; [exact Hord|].
  exact (proj1 (proj2 (proj2
           (stage_click_with_fewer_than_two_nodes
              Demo.viewportToGraph Demo.getBBox Demo.singletonWorld
              (Demo.point 1 0) "#5db346" Demo.uuid1 Hwf Hfresh Hord)))).
Defined.

(** The neighbours of (1,0) among (0,0), (10,0) and (0,10). *)
Lemma closest_two_nodes_are_selected_witness :
  let node := newNode (Demo.point 1 0) "#5db346" in
  consistent (candidates node (graph Demo.triangleWorld)) = true
  ∧ ∃ sel rest,
      closestNodes node Demo.triangleWorld = (Demo.triangleWorld, Ok sel)
      ∧ candidates node (graph Demo.triangleWorld) ≡ₚ sel ++ rest
      ∧ length sel = 2
      ∧ ∀ s c, s ∈ sel → c ∈ rest →
               num_gt0 (num_sub (distance s) (distance c)) = false.
Proof.
  intros node.
  assert (consistent (candidates node (graph Demo.triangleWorld)) = true)
    as Hc by (vm_compute; reflexivity).
  split; [exact Hc|].
  destruct (proj1 closest_two_nodes_are_selected intnum _
              Demo.triangleWorld (Demo.point 1 0) "#5db346" Hc)
    as (_ & sel & rest & Hsel & _ & Hperm & Hlen & Hmin & _).
  exists sel, rest. split; [exact Hsel|]. split; [exact Hperm|].
  split; [exact Hlen | exact Hmin].
Defined.

(** A pointer move and a release on the seeded page, before any press. *)
Lemma pointer_events_without_drag_are_noops_witness :
  isDragging Demo.world0 = false
  ∧ draggedNode Demo.world0 = None
  ∧ Demo.step Demo.world0 (MouseMoveBody (Demo.point 5 6)) = Demo.world0
  ∧ Demo.step Demo.world0 MouseUp = Demo.world0.
Proof.
  assert (isDragging Demo.world0 = false) as Hd by reflexivity.
  assert (draggedNode Demo.world0 = None) as Hn by reflexivity.
  split; [exact Hd|]. split; [exact Hn|].
  destruct (pointer_events_without_drag_are_noops
              Demo.viewportToGraph Demo.getBBox Demo.world0 (Demo.point 5 6))
    as (Hmove & _ & Hup).
  split.
  - exact (f_equal fst (Hmove (or_introl Hd))).
  - exact (f_equal fst (Hup Hd Hn)).
Defined.

(** A press, a move and a stage click: "John" alone is highlighted. *)
Lemma one_highlighted_node_in_sequential_sessions_witness :
  let evs := [DownNode "John"; MouseMoveBody (Demo.point 5 6);
              ClickStage (Demo.point 1 0) "#5db346" Demo.uuid1] in
  Demo.accepts sequential Demo.world0 evs = true
  ∧ isDragging (Demo.run Demo.world0 evs) = true
  ∧ ∃ n, highlightedNodes (graph (Demo.run Demo.world0 evs)) = [n].
Proof.
  intros evs.
  assert (Demo.accepts sequential Demo.world0 evs = true) as Hacc
    by (vm_compute; reflexivity).
  assert (isDragging (Demo.run Demo.world0 evs) = true) as Hd
    by (vm_compute; reflexivity).
  split; [exact Hacc|]. split; [exact Hd|].
  destruct (one_highlighted_node_in_sequential_sessions
              Demo.viewportToGraph Demo.getBBox Demo.arrange evs Hacc)
    as (_ & Hdrag & _).
  destruct (Hdrag Hd) as (n & _ & Hhl). exists n. exact Hhl.
Defined.

(** C6 as stated fails: two presses in a row, on "John" and then on
    "Mary", leave both nodes highlighted during the drag, and the release
    that follows clears only "Mary". *)
Lemma second_press_leaves_first_node_highlighted :
  ¬ (∀ evs,
       Demo.accepts emittable Demo.world0 evs = true →
       let w := Demo.run Demo.world0 evs in
       (length (highlightedNodes (graph w)) ≤ 1)%nat
       ∧ (isDragging w = false → highlightedNodes (graph w) = [])).
Proof.
  intros Hclaim.
  destruct (Hclaim [DownNode "John"; DownNode "Mary"]) as [Hlen _];
    [vm_compute; reflexivity|].
  vm_compute in Hlen. lia.
Qed.

(** The release that follows the two presses ends the drag and leaves
    "John" highlighted. *)
Example release_after_second_press :
  let w := Demo.run Demo.world0 [DownNode "John"; DownNode "Mary"; MouseUp] in
  isDragging w = false ∧ draggedNode w = None
  ∧ highlightedNodes (graph w) = ["John"].
Proof. vm_compute. by repeat split. Qed.

(** A stage click on the empty graph adds the node and no edge. *)
Example stage_click_on_empty_graph :
  let w := Demo.step Demo.emptyWorld
             (ClickStage (Demo.point 1 0) "#5db346" Demo.uuid1) in
  nodes (graph w) = [Demo.uuid1] ∧ g_edges (graph w) = [].
Proof. vm_compute. by split. Qed.

(** When [uuid()] repeats a key in use, [addNode] throws and the click
    adds nothing. *)
Example stage_click_with_key_in_use :
  let w := Demo.step Demo.world0
             (ClickStage (Demo.point 1 0) "#5db346" Demo.uuid1) in
  (handle Demo.viewportToGraph Demo.getBBox
     (ClickStage (Demo.point 2 0) "#5db346" Demo.uuid1) w).2
  = Throw UsageGraphError
  ∧ graph (Demo.step w (ClickStage (Demo.point 2 0) "#5db346" Demo.uuid1))
    = graph w.
Proof. vm_compute. by split. Qed.

(** The second mouse press does not replace the bounding box fixed by
    the first. *)
Lemma custom_bbox_captured_once_witness :
  let evs1 := [DownNode "John"; MouseUp] in
  let evs2 := [ClickStage (Demo.point 1 0) "#5db346" Demo.uuid1; MouseDown] in
  (MouseDown ∉ evs1)
  ∧ customBBox (Demo.run Demo.world0 (evs1 ++ MouseDown :: evs2))
    = Some (Demo.getBBox (Demo.run Demo.world0 evs1)).
Proof.
  intros evs1 evs2.
  assert (MouseDown ∉ evs1) as Hno.
  { intros H. repeat (apply elem_of_cons in H as [H|H]; [discriminate H|]).
    by apply elem_of_nil in H. }
  split; [exact Hno|]. rewrite run_app.
  exact (proj2 (custom_bbox_captured_once
                  Demo.viewportToGraph Demo.getBBox Demo.arrange
                  evs1 evs2 Hno)).
Defined.

(** A pointer move while "John" is dragged. *)
Lemma pointer_move_changes_only_position_witness :
  let w := Demo.step Demo.world0 (DownNode "John") in
  let w' := Demo.step w (MouseMoveBody (Demo.point 5 6)) in
  isDragging w = true
  ∧ draggedNode w = Some "John"
  ∧ g_edges (graph w') = g_edges (graph w)
  ∧ isDragging w' = true ∧ draggedNode w' = Some "John".
Proof.
  intros w w'.
  assert (isDragging w = true) as Hd by reflexivity.
  assert (draggedNode w = Some "John") as Hn by reflexivity.
  split; [exact Hd|]. split; [exact Hn|].
  destruct (pointer_move_changes_only_position
              Demo.viewportToGraph Demo.getBBox w "John" (Demo.point 5 6)
              Hd Hn)
    as (_ & Hedges & Hd' & Hn' & _).
  split; [exact Hedges|].
  split; [exact (eq_trans Hd' Hd) | exact (eq_trans Hn' Hn)].
Defined.

(** * Further properties of the controller *)

(** ** More on the graph store *)
Section StoreFacts.
Context {num : Type} `{!Number num}.
Implicit Types (g : Graph num) (l : list (string * gmap string (value num))).
Implicit Types (f : gmap string (value num) → gmap string (value num)).

Lemma lookupNode_updateNode_other key k f l :
  k ≠ key → lookupNode k (updateNode key f l) = lookupNode k l.
Proof.
  intros Hne. induction l as [|[k' a] l IH]; [done|].
  simpl. case_decide; simpl; case_decide; subst; done.
Qed.

Lemma lookupNode_app_present key l l' :
  key ∈ l.*1 → lookupNode key (l ++ l') = lookupNode key l.
Proof.
  induction l as [|[k a] l IH]; simpl.
  - by intros ?%elem_of_nil.
  - rewrite elem_of_cons. case_decide; [done|]. intros [?|?]; [by subst|auto].
Qed.

Lemma lookupNode_None key l : key ∉ l.*1 → lookupNode key l = None.
Proof.
  intros Hk. destruct (lookupNode key l) eqn:Hl; [|done].
  exfalso. apply Hk, lookupNode_is_Some. eauto.
Qed.

(** Only what the update does to the first entry under the key
    matters. *)
Lemma updateNode_ext key f f' l :
  (∀ a, lookupNode key l = Some a → f a = f' a) →
  updateNode key f l = updateNode key f' l.
Proof.
  induction l as [|[k a] l IH]; [done|]. simpl. case_decide; subst.
  - intros Hf. by rewrite Hf.
  - intros Hf. by rewrite IH.
Qed.

Lemma updateNode_same key f l :
  (∀ a, lookupNode key l = Some a → f a = a) → updateNode key f l = l.
Proof.
  induction l as [|[k a] l IH]; [done|]. simpl. case_decide; subst.
  - intros Hf. by rewrite Hf.
  - intros Hf. by rewrite IH.
Qed.

Lemma updateNode_order key f g es :
  order (mkGraph (updateNode key f (g_nodes g)) es) = order g.
Proof.
  unfold order; cbn. rewrite <- (length_fmap fst), updateNode_keys.
  apply length_fmap.
Qed.

(** *** Positions *)
Lemma hasPosition_insert_x (a : gmap string (value num)) v :
  hasPosition a = true → hasPosition (<["x" := VNum v]> a) = true.
Proof.
  unfold hasPosition. rewrite lookup_insert_eq, lookup_insert_ne by done.
  by destruct (a !! "x") as [[]|], (a !! "y") as [[]|].
Qed.

Lemma hasPosition_insert_y (a : gmap string (value num)) v :
  hasPosition a = true → hasPosition (<["y" := VNum v]> a) = true.
Proof.
  unfold hasPosition. rewrite lookup_insert_eq, lookup_insert_ne by done.
  by destruct (a !! "x") as [[]|], (a !! "y") as [[]|].
Qed.

Lemma hasPosition_frame (a a' : gmap string (value num)) :
  a' !! "x" = a !! "x" → a' !! "y" = a !! "y" →
  hasPosition a' = hasPosition a.
Proof. unfold hasPosition. by intros -> ->. Qed.

Lemma hasPosition_newNode (p : Coordinates num) color :
  hasPosition (newNode p color) = true.
Proof.
  unfold hasPosition, newNode.
  rewrite !lookup_insert_ne, lookup_insert_eq by done.
  by rewrite !lookup_insert_ne, lookup_insert_eq by done.
Qed.

Lemma positioned_updateNode key f l es :
  (∀ a, hasPosition a = true → hasPosition (f a) = true) →
  positioned (mkGraph l es) = true →
  positioned (mkGraph (updateNode key f l) es) = true.
Proof.
  intros Hf. unfold positioned; cbn.
  induction l as [|[k a] l IH]; [done|]. cbn.
  rewrite andb_true_iff. intros [Ha Hl].
  case_decide; cbn; rewrite andb_true_iff; auto.
Qed.

Lemma positioned_spec g :
  positioned g = true
  ↔ ∀ key attrs, (key, attrs) ∈ g_nodes g →
      ∃ x y, attrs !! "x" = Some (VNum x) ∧ attrs !! "y" = Some (VNum y).
Proof.
  unfold positioned. rewrite forallb_forall. split.
  - intros Hall key attrs Hin%list_elem_of_In. specialize (Hall _ Hin).
    cbn in Hall. unfold hasPosition in Hall.
    destruct (attrs !! "x") as [[x| |]|]; try done.
    destruct (attrs !! "y") as [[y| |]|]; try done. eauto.
  - intros Hall [key attrs] Hin%list_elem_of_In.
    destruct (Hall key attrs Hin) as (x & y & Hx & Hy).
    cbn. unfold hasPosition. by rewrite Hx, Hy.
Qed.

End StoreFacts.

(** ** More on single events and traces *)
Section EventFacts.
Context {num : Type} `{!Number num}.
Variable viewportToGraph : World num → Coordinates num → Coordinates num.
Variable getBBox : World num → BBox num.
Variable arrange : nat → nat → num * num.
Implicit Types (w : World num) (g : Graph num) (ev : Event num).

Local Abbreviation handle := (handle viewportToGraph getBBox).
Local Abbreviation step := (step viewportToGraph getBBox).
Local Abbreviation run := (run viewportToGraph getBBox).
Local Abbreviation accepts := (accepts viewportToGraph getBBox).
Local Abbreviation initialWorld := (initialWorld arrange).
Local Abbreviation reachable := (reachable viewportToGraph getBBox arrange).

Lemma gentle_highlight (v : value num) :
  @gentle num (insert "highlighted" v).
Proof.
  split.
  - intros a name _ _ Hh. by rewrite lookup_insert_ne.
  - intros a Ha. rewrite <- Ha. apply hasPosition_frame;
      by rewrite lookup_insert_ne.
Qed.

Lemma gentle_unhighlight : @gentle num (delete "highlighted").
Proof.
  split.
  - intros a name _ _ Hh. by rewrite lookup_delete_ne.
  - intros a Ha. rewrite <- Ha. apply hasPosition_frame;
      by rewrite lookup_delete_ne.
Qed.

Lemma gentle_position (x y : num) :
  @gentle num (insert "y" (VNum y) ∘ insert "x" (VNum x)).
Proof.
  split.
  - intros a name Hx Hy _; cbn. by rewrite !lookup_insert_ne.
  - intros a Ha; cbn. by apply hasPosition_insert_y, hasPosition_insert_x.
Qed.

Lemma step_graph_gentle w ev :
  let w' := step w ev in
  graph w' = graph w
  ∨ (∃ key f, key ∈ nodes (graph w) ∧ gentle f
       ∧ graph w' = mkGraph (updateNode key f (g_nodes (graph w)))
                            (g_edges (graph w)))
  ∨ (∃ event color id k,
       ev = ClickStage event color id ∧ (id ∉ nodes (graph w))
       ∧ let node := newNode (viewportToGraph w event) color in
         graph w'
         = mkGraph (g_nodes (graph w) ++ [(id, node)])
             (g_edges (graph w)
              ++ map (λ c, mkEdge id (nodeId c) ∅)
                   (take k (slice02 (sort (candidates node (graph w))))))).
Proof.
  destruct ev as [n|e| | |event color id].
  - rewrite step_DownNode.
    destruct (decide (n ∈ nodes (graph w))) as [Hn|Hn].
    + rewrite downNode_present by done. right; left.
      eexists _, _. split; [done|]. split; [apply gentle_highlight|done].
    + rewrite downNode_absent by done. by left.
  - rewrite step_MouseMoveBody.
    destruct (isDragging w) eqn:Hd;
      [|rewrite mousemovebody_idle by (by left); by left].
    destruct (draggedNode w) as [n|] eqn:Hdn;
      [|rewrite mousemovebody_idle by (right; by rewrite Hdn); by left].
    destruct (decide (n = EmptyString)) as [->|Hne];
      [rewrite mousemovebody_idle by (right; by rewrite Hdn); by left|].
    destruct (decide (n ∈ nodes (graph w))) as [Hn|Hn].
    + rewrite (mousemovebody_dragging _ e w n) by done; cbn.
      rewrite updateNode_updateNode. right; left.
      eexists _, _. split; [done|]. split; [apply gentle_position|done].
    + rewrite (mousemovebody_absent _ e w n) by done. by left.
  - rewrite step_MouseUp.
    destruct (draggedNode w) as [n|] eqn:Hdn;
      [|rewrite mouseup_idle by (by rewrite Hdn); by left].
    destruct (decide (n = EmptyString)) as [->|Hne];
      [rewrite mouseup_idle by (by rewrite Hdn); by left|].
    destruct (decide (n ∈ nodes (graph w))) as [Hn|Hn].
    + rewrite (mouseup_dragging w n) by done. right; left.
      eexists _, _. split; [done|]. split; [apply gentle_unhighlight|done].
    + rewrite (mouseup_absent w n) by done. by left.
  - rewrite step_MouseDown, mousedown_eq. by left.
  - rewrite step_ClickStage.
    destruct (clickStage_shape viewportToGraph event color id w)
      as (_ & _ & _ & [Hg|[Hf [k Hg]]]).
    + by left.
    + right; right. exists event, color, id, k. eauto.
Qed.

(** *** Positions are never lost *)
Lemma seed_positioned : positioned (seedGraph arrange) = true.
Proof. vm_compute. reflexivity. Qed.

Lemma step_positioned w ev :
  positioned (graph w) = true → positioned (graph (step w ev)) = true.
Proof.
  intros Hpos.
  destruct (step_graph_gentle w ev)
    as [->|[(key & f & _ & [_ Hf] & ->)|(event & color & id & k & _ & _ & ->)]].
  - done.
  - destruct (graph w) as [l es]. by apply positioned_updateNode.
  - unfold positioned in *; cbn. rewrite forallb_app, Hpos; cbn.
    by rewrite hasPosition_newNode.
Qed.

(** X1: after any sequence of events from the initial page every node
    of the graph holds a number under ["x"] and under ["y"], so the
    distance of line 171 never reads a missing coordinate. *)
Theorem every_node_keeps_a_position evs :
  Forall (λ na, ∃ x y, na.2 !! "x" = Some (VNum x)
                       ∧ na.2 !! "y" = Some (VNum y))
         (g_nodes (graph (run initialWorld evs))).
Proof.
  apply Forall_forall. intros [key attrs]. cbn. revert key attrs.
  apply positioned_spec.
  apply (run_invariant _ _ (λ w, positioned (graph w) = true)).
  - intros w ev. apply step_positioned.
  - exact seed_positioned.
Qed.

(** *** Attributes the handlers never write *)
Lemma step_attribute_frame w ev key name :
  key ∈ nodes (graph w) →
  name ≠ "x" → name ≠ "y" → name ≠ "highlighted" →
  getNodeAttribute key name (graph (step w ev))
  = getNodeAttribute key name (graph w).
Proof.
  intros Hkey Hx Hy Hh. unfold getNodeAttribute.
  destruct (step_graph_gentle w ev)
    as [->|[(key' & f & _ & [Hf _] & ->)|(event & color & id & k & _ & _ & ->)]].
  - done.
  - cbn [g_nodes]. destruct (decide (key' = key)) as [->|Hne].
    + rewrite lookupNode_updateNode_eq.
      destruct (lookupNode key (g_nodes (graph w))); [|done]. cbn.
      by apply Hf.
    + by rewrite lookupNode_updateNode_other.
  - cbn [g_nodes]. by rewrite lookupNode_app_present.
Qed.

(** X2: whatever events arrive, an attribute of an existing node other
    than ["x"], ["y"] and ["highlighted"] (its label, colour, size, type,
    image) keeps the value it has. *)
Theorem other_attributes_never_change w evs key name :
  key ∈ nodes (graph w) →
  name ≠ "x" → name ≠ "y" → name ≠ "highlighted" →
  getNodeAttribute key name (graph (run w evs))
  = getNodeAttribute key name (graph w).
Proof.
  intros Hkey Hx Hy Hh. revert w Hkey.
  induction evs as [|ev evs IH]; intros w Hkey; [done|].
  rewrite run_cons, IH, step_attribute_frame; try done.
  destruct (step_nodes_prefix viewportToGraph getBBox w ev) as [rest ->].
  apply elem_of_app. by left.
Qed.

(** *** The graph only grows, by stage clicks *)
Lemma clickCount_cons ev (evs : list (Event num)) :
  clickCount (ev :: evs)
  = ((if isClickStage ev then 1 else 0) + clickCount evs)%nat.
Proof.
  unfold clickCount. rewrite filter_cons.
  by destruct (isClickStage ev); [rewrite decide_True|rewrite decide_False].
Qed.

Lemma step_edges_prefix w ev :
  g_edges (graph w) `prefix_of` g_edges (graph (step w ev)).
Proof.
  destruct (step_graph viewportToGraph getBBox w ev)
    as [->|[(key & f & _ & ->)|(event & color & id & k & _ & _ & ->)]];
    cbn; [done|done|]. by apply prefix_app_r.
Qed.

Lemma step_growth w ev :
  (order (graph (step w ev))
   ≤ order (graph w) + (if isClickStage ev then 1 else 0))%nat
  ∧ (length (g_edges (graph (step w ev)))
     ≤ length (g_edges (graph w)) + (if isClickStage ev then 2 else 0))%nat.
Proof.
  destruct (step_graph viewportToGraph getBBox w ev)
    as [->|[(key & f & _ & ->)|(event & color & id & k & -> & _ & ->)]].
  - lia.
  - rewrite updateNode_order; cbn. lia.
  - unfold order; cbn. rewrite !length_app, length_map, length_take; cbn.
    unfold slice02. rewrite length_take. lia.
Qed.

(** X3: along any trace, from any state, the node keys and the edges
    present are kept, in their order, as an initial segment of those of
    the later state: nothing is removed, reordered or rewritten; and a
    trace without stage click leaves the node keys and the edges exactly
    as they were. *)
Theorem graph_only_grows w evs :
  nodes (graph w) `prefix_of` nodes (graph (run w evs))
  ∧ g_edges (graph w) `prefix_of` g_edges (graph (run w evs))
  ∧ (clickCount evs = 0 →
       nodes (graph (run w evs)) = nodes (graph w)
       ∧ g_edges (graph (run w evs)) = g_edges (graph w)).
Proof.
  revert w. induction evs as [|ev evs IH]; intros w; [by repeat split|].
  rewrite run_cons. destruct (IH (step w ev)) as (Hn & He & Hzero).
  split; [by etrans; [apply step_nodes_prefix|]|].
  split; [by etrans; [apply step_edges_prefix|]|].
  rewrite clickCount_cons. intros Hcount.
  destruct (isClickStage ev) eqn:Hclick; [lia|].
  destruct (Hzero Hcount) as [-> ->].
  destruct (step_graph viewportToGraph getBBox w ev)
    as [->|[(key & f & _ & ->)|(event & color & id & k & -> & _ & _)]];
    [done| |done].
  unfold nodes; cbn. by rewrite updateNode_keys.
Qed.

(** X4: a trace adds at most one node and at most two edges per stage
    click it contains. *)
Theorem growth_is_bounded_by_clicks w evs :
  (order (graph (run w evs)) ≤ order (graph w) + clickCount evs)%nat
  ∧ (length (g_edges (graph (run w evs)))
     ≤ length (g_edges (graph w)) + 2 * clickCount evs)%nat.
Proof.
  revert w. induction evs as [|ev evs IH]; intros w; [cbn; lia|].
  rewrite run_cons, clickCount_cons.
  destruct (IH (step w ev)) as [Hn He].
  destruct (step_growth w ev) as [Hn' He'].
  destruct (isClickStage ev); lia.
Qed.

End EventFacts.

(** ** More on the drag session *)
Section SessionFacts.
Context {num : Type} `{!Number num}.
Variable viewportToGraph : World num → Coordinates num → Coordinates num.
Variable getBBox : World num → BBox num.
Variable arrange : nat → nat → num * num.
Implicit Types (w : World num) (g : Graph num) (ev : Event num).

Local Abbreviation handle := (handle viewportToGraph getBBox).
Local Abbreviation step := (step viewportToGraph getBBox).
Local Abbreviation run := (run viewportToGraph getBBox).
Local Abbreviation accepts := (accepts viewportToGraph getBBox).
Local Abbreviation initialWorld := (initialWorld arrange).
Local Abbreviation reachable := (reachable viewportToGraph getBBox arrange).

Lemma clickStage_key_in_use w event color id :
  id ∈ nodes (graph w) →
  clickStage viewportToGraph event color id w = (w, Throw UsageGraphError).
Proof.
  intros Hid%hasNode_true. rewrite clickStage_unfold.
  unfold addNode. by rewrite Hid.
Qed.

(** X5: when [uuid()] returns a key that is already in the graph, the
    stage click throws [UsageGraphError] out of [addNode] and leaves the
    whole page as it was: no node, no edge, no change of the session. *)
Theorem stage_click_with_used_key_changes_nothing w event color id :
  id ∈ nodes (graph w) →
  handle (ClickStage event color id) w = (w, Throw UsageGraphError).
Proof. intros Hid; cbn. by apply clickStage_key_in_use. Qed.

Lemma coherent_Some w n :
  draggedNode w = Some n → coherent w = true →
  isDragging w = true ∧ n ∈ nodes (graph w).
Proof.
  unfold coherent. intros ->. rewrite andb_true_iff, hasNode_true. tauto.
Qed.

Lemma coherent_None w :
  draggedNode w = None → coherent w = true → isDragging w = false.
Proof. unfold coherent. intros ->. by rewrite negb_true_iff. Qed.

(** One emitted event in a coherent state of a well-formed page. *)
Lemma emitted_step w ev :
  graph_wf (graph w) → EmptyString ∉ nodes (graph w) →
  coherent w = true → emittable w ev = true →
  coherent (step w ev) = true
  ∧ ((handle ev w).2 = Ok ()
     ∨ ∃ event color id,
         ev = ClickStage event color id ∧ id ∈ nodes (graph w)
         ∧ handle ev w = (w, Throw UsageGraphError)).
Proof.
  intros Hwf Hne Hco Hev. rewrite step_handle.
  destruct ev as [n|e| | |event color id]; cbn.
  - cbn in Hev. apply hasNode_true in Hev.
    rewrite downNode_present by done. split; [|by left].
    unfold coherent; cbn. apply hasNode_true.
    unfold nodes; cbn. by rewrite updateNode_keys.
  - destruct (draggedNode w) as [n|] eqn:Hn.
    + destruct (coherent_Some w n Hn Hco) as [Hd Hin].
      assert (n ≠ EmptyString) as Hnn by (by intros ->).
      rewrite (mousemovebody_dragging _ e w n) by done.
      split; [|by left]. unfold coherent; cbn. apply hasNode_true.
      unfold nodes; cbn. by rewrite !updateNode_keys.
    + rewrite mousemovebody_idle by (right; by rewrite Hn).
      split; [done | by left].
  - destruct (draggedNode w) as [n|] eqn:Hn.
    + destruct (coherent_Some w n Hn Hco) as [Hd Hin].
      assert (n ≠ EmptyString) as Hnn by (by intros ->).
      rewrite (mouseup_dragging w n) by done. split; [done | by left].
    + rewrite mouseup_idle by (by rewrite Hn). split; [done | by left].
  - rewrite mousedown_eq. split; [done | by left].
  - destruct (decide (id ∈ nodes (graph w))) as [Hid|Hid].
    + rewrite clickStage_key_in_use by done. split; [done|].
      right. by exists event, color, id.
    + rewrite clickStage_Ok by done. split; [|by left].
      unfold coherent in *; cbn.
      destruct (draggedNode w) as [n|]; [|done].
      apply andb_true_iff in Hco as [-> Hin]. cbn.
      apply hasNode_true in Hin. apply hasNode_true.
      unfold nodes; cbn. rewrite fmap_app. apply elem_of_app. by left.
Qed.

Lemma reachable_invariant w :
  reachable w →
  graph_wf (graph w) ∧ (EmptyString ∉ nodes (graph w)) ∧ coherent w = true.
Proof.
  intros (evs & Hacc & ->).
  apply (accepts_invariant _ _ (@emittable num)
           (λ w, graph_wf (graph w) ∧ (EmptyString ∉ nodes (graph w))
                 ∧ coherent w = true)); [| |done].
  - intros w ev (Hwf & Hne & Hco) Hev.
    split; [by apply step_graph_wf|]. split; [by apply step_nonempty|].
    by apply emitted_step.
  - split; [exact (seed_graph_wf arrange)|].
    split; [exact (seed_nonempty arrange) | done].
Qed.

(** X6: in every state the page can reach the two module variables
    agree: either [draggedNode] is null and [isDragging] is false, or
    [isDragging] is true and [draggedNode] is a node of the graph. *)
Theorem drag_variables_agree w :
  reachable w →
  (draggedNode w = None ∧ isDragging w = false)
  ∨ (∃ n, draggedNode w = Some n ∧ isDragging w = true
          ∧ n ∈ nodes (graph w)).
Proof.
  intros (_ & _ & Hco)%reachable_invariant.
  destruct (draggedNode w) as [n|] eqn:Hn.
  - right. exists n. split; [done|]. by apply coherent_Some.
  - left. split; [done|]. by apply coherent_None.
Qed.

(** X7: in every state the page can reach, every event the renderer
    can emit is handled without an exception, except a stage click whose
    [uuid()] key is already in the graph, which throws [UsageGraphError]
    and changes nothing. *)
Theorem emitted_events_do_not_throw w ev :
  reachable w → emittable w ev = true →
  (handle ev w).2 = Ok ()
  ∨ ∃ event color id,
      ev = ClickStage event color id ∧ id ∈ nodes (graph w)
      ∧ handle ev w = (w, Throw UsageGraphError).
Proof.
  intros (Hwf & Hne & Hco)%reachable_invariant Hev.
  by apply emitted_step.
Qed.

(** *** The graph stays simple *)
Lemma seed_simpleGraph : simpleGraph (seedGraph arrange).
Proof.
  pose proof (seed_edges arrange) as Hends.
  split.
  - change (NoDup (map edgeEnds (g_edges (seedGraph arrange)))).
    unfold edgeEnds. rewrite Hends. compute_done.
  - intros e He.
    assert ((source e, target e)
            ∈ map (λ e, (source e, target e)) (g_edges (seedGraph arrange)))
      as Hst by (apply list_elem_of_In, (in_map (λ e, (source e, target e))),
                   list_elem_of_In, He).
    rewrite Hends in Hst. clear He Hends.
    repeat (apply elem_of_cons in Hst as [[= -> ->]|Hst]; [done|]).
    exfalso. exact (proj1 (elem_of_nil _) Hst).
Qed.

Lemma step_simpleGraph w ev :
  graph_wf (graph w) → simpleGraph (graph w) →
  simpleGraph (graph (step w ev)).
Proof.
  intros [Hnd Hcl] [Hends Hloop].
  destruct (step_graph viewportToGraph getBBox w ev)
    as [->|[(key & f & _ & ->)|(event & color & id & k & _ & Hid & ->)]];
    [done|done|].
  set (cs := take k (slice02
                 (sort (candidates (newNode (viewportToGraph w event) color)
                                   (graph w))))).
  assert (∀ c, c ∈ cs → nodeId c ∈ nodes (graph w)) as Hin.
  { intros c Hc%(subseteq_take k). by eapply closest_in_graph. }
  assert (NoDup (nodeId <$> cs)) as Hcs.
  { unfold cs. rewrite fmap_take.
    eapply sublist_NoDup; [|apply sublist_take].
    by apply closest_NoDup. }
  split; cbn.
  - rewrite fmap_app. apply NoDup_app. split; [done|]. split.
    + intros ends (e & -> & He)%list_elem_of_fmap
             (e' & Heq & (c & <- & Hc)%list_elem_of_In%in_map_iff)%list_elem_of_fmap.
      injection Heq as Hs _. cbn in Hs.
      apply Hid. rewrite <- Hs. by apply Hcl.
    + change (NoDup (@edgeEnds num
                       <$> ((λ c : Candidate num, mkEdge id (nodeId c) ∅)
                            <$> cs))).
      rewrite <- list_fmap_compose.
      change (NoDup (((λ t : string, (id, t)) ∘ nodeId) <$> cs)).
      rewrite list_fmap_compose. apply NoDup_fmap_2; [|done].
      by intros t t' [= ->].
  - intros e [He|(c & <- & Hc)%list_elem_of_In%in_map_iff]%elem_of_app.
    + by apply Hloop.
    + cbn. intros Heq. apply Hid. rewrite Heq.
      by apply Hin, list_elem_of_In.
Qed.

(** X8: after any sequence of events from the initial page the graph
    is simple: no two edges join the same source to the same target, and
    no edge is a self-loop. *)
Theorem graph_stays_simple evs :
  let g := graph (run initialWorld evs) in
  NoDup (edgeEnds <$> g_edges g) ∧ ∀ e, e ∈ g_edges g → source e ≠ target e.
Proof.
  intros g. subst g.
  assert (graph_wf (graph (run initialWorld evs))
          ∧ simpleGraph (graph (run initialWorld evs))) as [_ Hsimple].
  { apply (run_invariant _ _
             (λ w, graph_wf (graph w) ∧ simpleGraph (graph w))).
    - intros w ev [Hwf Hs]. split; [by apply step_graph_wf|].
      by apply step_simpleGraph.
    - split; [exact (seed_graph_wf arrange) | exact seed_simpleGraph]. }
  exact Hsimple.
Qed.

(** *** Whole drag sessions *)
Lemma not_highlighted_lookup g n a :
  getNodeAttribute n "highlighted" g = None →
  lookupNode n (g_nodes g) = Some a → a !! "highlighted" = None.
Proof. unfold getNodeAttribute. intros Hh Ha. by rewrite Ha in Hh. Qed.

(** X9: pressing a node that is not highlighted and releasing at once
    gives back the graph exactly as it was, with the session idle: the
    [highlighted] attribute written by the press is removed by the
    release and nothing else is written. *)
Theorem press_then_release_restores_graph w n :
  n ∈ nodes (graph w) → n ≠ EmptyString →
  getNodeAttribute n "highlighted" (graph w) = None →
  run w [DownNode n; MouseUp]
  = mkWorld (graph w) None false (customBBox w).
Proof.
  intros Hin Hne Hh.
  rewrite !run_cons, step_DownNode, downNode_present by done. cbn [fst].
  rewrite step_MouseUp, (mouseup_dragging _ n); try done.
  2:{ unfold nodes; cbn. by rewrite updateNode_keys. }
  cbn. rewrite updateNode_updateNode, updateNode_same; [by destruct (graph w)|].
  intros a Ha; cbn. apply delete_insert_id.
  by apply (not_highlighted_lookup (graph w) n).
Qed.

(** The moves of a drag rewrite the dragged node only, and on it only
    ["x"] and ["y"]. *)
Lemma moves_rewrite_position w n ms :
  isDragging w = true → draggedNode w = Some n → n ≠ EmptyString →
  n ∈ nodes (graph w) →
  ∃ f, (∀ a name, name ≠ "x" → name ≠ "y" → f a !! name = a !! name)
       ∧ run w (map MouseMoveBody ms)
         = mkWorld (mkGraph (updateNode n f (g_nodes (graph w)))
                            (g_edges (graph w)))
                   (Some n) true (customBBox w).
Proof.
  revert w. induction ms as [|e ms IH]; intros w Hd Hn Hne Hin.
  - exists id. split; [done|]. cbn.
    rewrite updateNode_same by done.
    destruct w as [[l es] d i b]; cbn in *. by subst.
  - cbn [map]. rewrite run_cons, step_MouseMoveBody.
    rewrite (mousemovebody_dragging _ e w n) by done. cbn [fst].
    edestruct (IH (mkWorld
                    (mkGraph
                       (updateNode n
                          (insert "y" (VNum (cy (viewportToGraph w e))))
                          (updateNode n
                             (insert "x" (VNum (cx (viewportToGraph w e))))
                             (g_nodes (graph w))))
                       (g_edges (graph w)))
                    (Some n) true (customBBox w))) as (f & Hf & Hrun);
      try done.
    { unfold nodes; cbn. by rewrite !updateNode_keys. }
    rewrite Hrun; cbn. rewrite !updateNode_updateNode.
    eexists. split; [|done].
    intros a name Hx Hy; cbn. by rewrite Hf, !lookup_insert_ne.
Qed.

(** X10: a complete drag of a node that was not highlighted (press,
    one or more moves, release) changes the page in one way only: the
    dragged node's ["x"] and ["y"] become the coordinates converted from
    the last move.  Its other attributes, the other nodes, the edges and
    the custom bounding box are as before, and the session is idle. *)
Theorem drag_session_changes_only_position w n ms e :
  n ∈ nodes (graph w) → n ≠ EmptyString →
  getNodeAttribute n "highlighted" (graph w) = None →
  let wl := run w (DownNode n :: map MouseMoveBody ms) in
  let p := viewportToGraph wl e in
  run w (DownNode n :: map MouseMoveBody (ms ++ [e]) ++ [MouseUp])
  = mkWorld
      (mkGraph
         (updateNode n (insert "y" (VNum (cy p)) ∘ insert "x" (VNum (cx p)))
            (g_nodes (graph w)))
         (g_edges (graph w)))
      None false (customBBox w).
Proof.
  intros Hin Hne Hh wl p.
  assert (run w (DownNode n :: map MouseMoveBody (ms ++ [e]) ++ [MouseUp])
          = step (step wl (MouseMoveBody e)) MouseUp) as ->.
  { subst wl. by rewrite map_app, !app_comm_cons, !run_app. }
  assert (∃ f, (∀ a name, name ≠ "x" → name ≠ "y" →
                          f a !! name = a !! name)
               ∧ wl = mkWorld
                        (mkGraph
                           (updateNode n
                              (f ∘ insert "highlighted" (VBool true))
                              (g_nodes (graph w)))
                           (g_edges (graph w)))
                        (Some n) true (customBBox w)) as (f & Hf & Hwl).
  { subst wl. rewrite run_cons, step_DownNode, downNode_present by done.
    cbn [fst].
    edestruct (moves_rewrite_position
                 (mkWorld
                    (mkGraph
                       (updateNode n (insert "highlighted" (VBool true))
                          (g_nodes (graph w)))
                       (g_edges (graph w)))
                    (Some n) true (customBBox w)) n ms) as (f & Hf & Hrun);
      try done.
    { unfold nodes; cbn. by rewrite updateNode_keys. }
    rewrite Hrun; cbn. rewrite updateNode_updateNode. by exists f. }
  subst p. clearbody wl. subst wl.
  rewrite step_MouseMoveBody, (mousemovebody_dragging _ _ _ n); try done.
  2:{ unfold nodes; cbn. by rewrite updateNode_keys. }
  cbn [fst]. rewrite step_MouseUp, (mouseup_dragging _ n); try done.
  2:{ unfold nodes; cbn. by rewrite !updateNode_keys. }
  cbn [fst graph g_nodes g_edges customBBox].
  match goal with |- context [viewportToGraph ?w0 e] =>
    generalize (viewportToGraph w0 e) end.
  intros p. rewrite !updateNode_updateNode.
  f_equal. f_equal. apply updateNode_ext. intros a Ha; cbn.
  pose proof (not_highlighted_lookup (graph w) n a Hh Ha) as Hnone.
  apply map_eq. intros name.
  destruct (decide (name = "highlighted")) as [->|Hnh].
  { by rewrite lookup_delete_eq, !lookup_insert_ne. }
  rewrite lookup_delete_ne by done.
  destruct (decide (name = "y")) as [->|Hny];
    [by rewrite !lookup_insert_eq|].
  rewrite !(lookup_insert_ne _ "y") by done.
  destruct (decide (name = "x")) as [->|Hnx];
    [by rewrite !lookup_insert_eq|].
  rewrite !(lookup_insert_ne _ "x") by done.
  rewrite Hf by done. by rewrite lookup_insert_ne.
Qed.

(** X11: a press on a second node [m] while [n] is highlighted leaves
    both highlighted and makes [m] the dragged node; the release that
    follows ends the drag and clears [m] only, so [n] stays highlighted
    with no drag active. *)
Theorem second_press_leaves_highlight_behind w n m v :
  n ≠ m → m ∈ nodes (graph w) → m ≠ EmptyString →
  getNodeAttribute n "highlighted" (graph w) = Some v →
  let w1 := step w (DownNode m) in
  let w2 := step w1 MouseUp in
  getNodeAttribute n "highlighted" (graph w1) = Some v
  ∧ getNodeAttribute m "highlighted" (graph w1) = Some (VBool true)
  ∧ draggedNode w1 = Some m ∧ isDragging w1 = true
  ∧ getNodeAttribute n "highlighted" (graph w2) = Some v
  ∧ getNodeAttribute m "highlighted" (graph w2) = None
  ∧ draggedNode w2 = None ∧ isDragging w2 = false.
Proof.
  intros Hnm Hin Hne Hh w1 w2. subst w2 w1.
  rewrite step_DownNode, downNode_present by done. cbn [fst].
  rewrite step_MouseUp, (mouseup_dragging _ m); try done.
  2:{ unfold nodes; cbn. by rewrite updateNode_keys. }
  apply lookupNode_is_Some in Hin as [a Ha].
  unfold getNodeAttribute in *; cbn.
  rewrite !(lookupNode_updateNode_other m n) by done.
  rewrite !lookupNode_updateNode_eq, Ha; cbn.
  by rewrite lookup_insert_eq, lookup_delete_eq.
Qed.

(** *** Keys the truthiness tests and the store reject *)
Lemma moves_without_truthy_key w ms :
  truthy (draggedNode w) = false → run w (map MouseMoveBody ms) = w.
Proof.
  intros Ht. induction ms as [|e ms IH]; [done|].
  cbn [map]. rewrite run_cons, step_MouseMoveBody.
  rewrite mousemovebody_idle by (by right). exact IH.
Qed.

(** X12: the node stored under the empty key cannot be dragged.  The
    press highlights it, but the empty string is falsy: the moves change
    nothing and the release ends the drag without clearing the
    highlight. *)
Theorem empty_key_node_cannot_be_dragged w ms :
  EmptyString ∈ nodes (graph w) →
  run w (DownNode EmptyString :: map MouseMoveBody ms ++ [MouseUp])
  = mkWorld
      (mkGraph
         (updateNode EmptyString (insert "highlighted" (VBool true))
            (g_nodes (graph w)))
         (g_edges (graph w)))
      None false (customBBox w).
Proof.
  intros Hin. rewrite app_comm_cons, run_app.
  rewrite (run_cons viewportToGraph getBBox w (DownNode EmptyString)).
  rewrite step_DownNode, downNode_present by done. cbn [fst].
  rewrite moves_without_truthy_key by done.
  rewrite run_cons, step_MouseUp, mouseup_idle by done. done.
Qed.

(** X13: a press naming a key that is not in the graph throws
    [NotFoundGraphError] after the two module variables are written.
    From then on every pointer move and every release throws as well
    and changes nothing, so the drag never ends. *)
Theorem press_on_unknown_node_blocks_session w n evs :
  n ∉ nodes (graph w) → n ≠ EmptyString →
  Forall (λ ev, ev = MouseUp ∨ ∃ e, ev = MouseMoveBody e) evs →
  let w1 := mkWorld (graph w) (Some n) true (customBBox w) in
  handle (DownNode n) w = (w1, Throw NotFoundGraphError)
  ∧ run w (DownNode n :: evs) = w1
  ∧ ∀ ev, ev ∈ evs → handle ev w1 = (w1, Throw NotFoundGraphError).
Proof.
  intros Hin Hne Hevs w1.
  assert (∀ ev, ev = MouseUp ∨ (∃ e, ev = MouseMoveBody e) →
                handle ev w1 = (w1, Throw NotFoundGraphError)) as Hthrow.
  { intros ev [->|[e ->]]; cbn.
    - by rewrite (mouseup_absent w1 n).
    - by rewrite (mousemovebody_absent _ e w1 n). }
  split; [cbn; by rewrite downNode_absent|]. split.
  - rewrite run_cons, step_DownNode, downNode_absent by done. cbn [fst].
    fold w1. induction Hevs as [|ev evs Hev _ IH]; [done|].
    by rewrite run_cons, step_handle, (Hthrow ev Hev).
  - intros ev Hev. rewrite Forall_forall in Hevs. by apply Hthrow, Hevs.
Qed.

(** *** Only a press highlights *)
Lemma highlightedNodes_unhighlight key
    (l : list (string * gmap string (value num))) es :
  highlightedNodes (mkGraph (updateNode key (delete "highlighted") l) es)
  ⊆ highlightedNodes (mkGraph l es).
Proof.
  unfold highlightedNodes; cbn [g_nodes].
  induction l as [|[k a] l IH]; [done|].
  cbn [updateNode]. case_decide.
  - rewrite !filter_cons; cbn [snd]. rewrite lookup_delete_eq.
    rewrite decide_False by (by intros [? ?]).
    destruct (decide (is_Some (a !! "highlighted"))); [|done].
    rewrite fmap_cons. intros x Hx. by right.
  - rewrite !filter_cons; cbn [snd].
    destruct (decide (is_Some (a !! "highlighted"))); [|done].
    rewrite !fmap_cons. intros x [->|Hx]%elem_of_cons; [by left|].
    right. by apply IH.
Qed.

Lemma step_highlightedNodes w ev :
  (∀ n, ev ≠ DownNode n) →
  highlightedNodes (graph (step w ev)) ⊆ highlightedNodes (graph w).
Proof.
  intros Hpress. destruct ev as [n|e| | |event color id].
  - by destruct (Hpress n).
  - rewrite step_MouseMoveBody.
    destruct (isDragging w) eqn:Hd;
      [|by rewrite mousemovebody_idle by (by left)].
    destruct (draggedNode w) as [n|] eqn:Hdn;
      [|by rewrite mousemovebody_idle by (right; by rewrite Hdn)].
    destruct (decide (n = EmptyString)) as [->|Hne];
      [by rewrite mousemovebody_idle by (right; by rewrite Hdn)|].
    destruct (decide (n ∈ nodes (graph w))) as [Hn|Hn];
      [|by rewrite (mousemovebody_absent _ e w n)].
    rewrite (mousemovebody_dragging _ e w n) by done. cbn [fst graph].
    rewrite !highlightedNodes_update_frame
      by (intros a; by rewrite lookup_insert_ne).
    by destruct (graph w).
  - rewrite step_MouseUp.
    destruct (draggedNode w) as [n|] eqn:Hdn;
      [|by rewrite mouseup_idle by (by rewrite Hdn)].
    destruct (decide (n = EmptyString)) as [->|Hne];
      [by rewrite mouseup_idle by (by rewrite Hdn)|].
    destruct (decide (n ∈ nodes (graph w))) as [Hn|Hn];
      [|by rewrite (mouseup_absent w n)].
    rewrite (mouseup_dragging w n) by done. cbn [fst graph].
    destruct (graph w) as [l es]. apply highlightedNodes_unhighlight.
  - by rewrite step_MouseDown, mousedown_eq.
  - rewrite step_ClickStage.
    destruct (clickStage_shape viewportToGraph event color id w)
      as (_ & _ & _ & [->|(_ & k & ->)]); [done|].
    destruct (graph w) as [l es]. cbn [g_nodes g_edges].
    rewrite highlightedNodes_app. unfold highlightedNodes at 2.
    cbn [g_nodes]. rewrite filter_cons; cbn [snd].
    rewrite newNode_not_highlighted.
    rewrite decide_False by (by intros [? ?]).
    by rewrite filter_nil, app_nil_r.
Qed.

(** X17: only a node press highlights.  Along a trace without node
    press, from any state, every node that carries [highlighted] at the
    end carried it at the start. *)
Theorem only_a_press_highlights w evs :
  Forall (λ ev, ∀ n, ev ≠ DownNode n) evs →
  highlightedNodes (graph (run w evs)) ⊆ highlightedNodes (graph w).
Proof.
  intros Hevs. revert w. induction Hevs as [|ev evs Hev _ IH]; intros w.
  - done.
  - rewrite run_cons. etrans; [apply IH|]. by apply step_highlightedNodes.
Qed.

End SessionFacts.

(** ** More on the nearest neighbours *)
Section ClosestFacts.
Context {num : Type} `{!Number num}.
Implicit Types (w : World num) (a b c x : Candidate num).
Implicit Types (l cs : list (Candidate num)).

Lemma ties_keeps a x b :
  ties a x = true → ties b x = true → keeps a x = true ∧ keeps x b = true.
Proof. unfold ties. rewrite !andb_true_iff. tauto. Qed.

Lemma insertSorted_stable cs x a l :
  consistent cs = true → x ∈ cs → a ∈ cs → l ⊆ cs →
  filter (λ c, ties c x = true) (insertSorted a l)
  = filter (λ c, ties c x = true) (a :: l).
Proof.
  intros Hc Hx Ha. induction l as [|b l IH]; intros Hl; [done|].
  cbn [insertSorted].
  destruct (num_gt0 (compareFn a b)) eqn:Hgt; [|done].
  assert (b ∈ cs) as Hb by (apply Hl; left).
  rewrite filter_cons, IH by (intros c Hin; apply Hl; by right).
  rewrite !filter_cons.
  destruct (decide (ties a x = true)) as [Hax|Hax];
    destruct (decide (ties b x = true)) as [Hbx|Hbx]; try done.
  exfalso. destruct (ties_keeps a x b Hax Hbx) as [H1 H2].
  pose proof (consistent_trans cs a x b Hc Ha Hx Hb H1 H2) as Hab.
  unfold keeps in Hab. by rewrite Hgt in Hab.
Qed.

Lemma sort_stable cs x l :
  consistent cs = true → x ∈ cs → l ⊆ cs →
  filter (λ c, ties c x = true) (sort l) = filter (λ c, ties c x = true) l.
Proof.
  intros Hc Hx. induction l as [|a l IH]; intros Hl; [done|].
  cbn [sort foldr]. fold (sort l).
  rewrite (insertSorted_stable cs); [|done|done|apply Hl; left|].
  - rewrite !filter_cons, IH; [done|]. intros c Hin. apply Hl. by right.
  - intros c Hin. apply Hl. right. by rewrite <- (sort_Permutation l).
Qed.

(** X14: ties are broken by iteration order.  When the comparator is
    consistent on the distances, the candidates it ranks equal to a given
    one stand in the sorted list, from which the first two are taken, in
    the order in which [graph.nodes()] lists them. *)
Theorem equidistant_nodes_keep_iteration_order w
    (node : gmap string (value num)) x :
  let cs := candidates node (graph w) in
  consistent cs = true → x ∈ cs →
  closestNodes node w = (w, Ok (slice02 (sort cs)))
  ∧ filter (λ c, ties c x = true) (sort cs)
    = filter (λ c, ties c x = true) cs.
Proof.
  intros cs Hc Hx. split; [apply closestNodes_eq|].
  by apply (sort_stable cs).
Qed.

(** X15: whatever the distances are, NaN included, the search for the
    closest nodes leaves the page unchanged, throws nothing, and returns
    two candidates (all of them when the graph has fewer than two nodes)
    that are distinct nodes of the graph, each with the squared distance
    computed from its own attributes. *)
Theorem closest_nodes_are_distinct_graph_nodes w
    (node : gmap string (value num)) :
  NoDup (nodes (graph w)) →
  ∃ sel,
    closestNodes node w = (w, Ok sel)
    ∧ length sel = 2 `min` order (graph w)
    ∧ NoDup (nodeId <$> sel)
    ∧ ∀ c, c ∈ sel →
        nodeId c ∈ nodes (graph w)
        ∧ distance c
          = squaredDistance node (attributesOf (nodeId c) (graph w)).
Proof.
  intros Hnd. exists (slice02 (sort (candidates node (graph w)))).
  split; [apply closestNodes_eq|]. split.
  { rewrite slice02_length, sort_length. unfold candidates, nodes, order.
    by rewrite length_map, length_fmap. }
  split; [by apply closest_NoDup|].
  intros c Hc. split; [by eapply closest_in_graph|].
  apply (subseteq_take 2) in Hc. rewrite sort_Permutation in Hc.
  unfold candidates in Hc.
  by apply list_elem_of_In, in_map_iff in Hc as (id & <- & _).
Qed.

End ClosestFacts.

(** ** The arrangement of the seed nodes *)
Section ArrangeFacts.
Context {num : Type} `{!Number num}.
Variable arrange : nat → nat → num * num.
Implicit Types (g : Graph num).

Lemma arrangeFrom_spec keys i g :
  keys ⊆ nodes g → NoDup keys →
  ∃ g', arrangeFrom arrange i keys g = Ok g'
    ∧ nodes g' = nodes g ∧ g_edges g' = g_edges g
    ∧ (∀ j key, keys !! j = Some key →
         getNodeAttribute key "x" g' = Some (VNum (arrange (i + j) (order g)).1)
         ∧ getNodeAttribute key "y" g'
           = Some (VNum (arrange (i + j) (order g)).2))
    ∧ (∀ key, key ∉ keys →
         lookupNode key (g_nodes g') = lookupNode key (g_nodes g))
    ∧ (∀ key name, name ≠ "x" → name ≠ "y" →
         getNodeAttribute key name g' = getNodeAttribute key name g).
Proof.
  revert i g. induction keys as [|k rest IH]; intros i g Hsub Hnd.
  - exists g. split; [done|]. split; [done|]. split; [done|].
    split; [|done]. intros j key Hj. by destruct j.
  - apply NoDup_cons in Hnd as [Hk Hnd].
    assert (k ∈ nodes g) as Hin by (apply Hsub; left).
    cbn [arrangeFrom]. rewrite setNodeAttribute_Ok by done.
    unfold mbind, result_bind at 1.
    rewrite setNodeAttribute_Ok
      by (unfold nodes; cbn; by rewrite updateNode_keys).
    unfold mbind, result_bind at 1. cbn [g_nodes g_edges].
    rewrite updateNode_order, updateNode_updateNode.
    set (f := insert "y" (VNum (arrange i (order g)).2)
              ∘ insert "x" (VNum (arrange i (order g)).1)).
    set (g2 := mkGraph (updateNode k f (g_nodes g)) (g_edges g)).
    assert (nodes g2 = nodes g) as Hnodes
      by (unfold nodes, g2; cbn; by rewrite updateNode_keys).
    assert (order g2 = order g) as Horder by apply updateNode_order.
    destruct (IH (S i) g2) as (g' & Hrun & Hn' & He' & Hpos & Hother & Hframe);
      [rewrite Hnodes; intros key Hkey; apply Hsub; by right | done |].
    exists g'. split; [done|]. split; [by rewrite Hn'|]. split; [done|].
    apply lookupNode_is_Some in Hin as [a Ha].
    split; [|split].
    + intros j key Hj. destruct j as [|j]; cbn in Hj.
      * injection Hj as <-. unfold getNodeAttribute.
        rewrite (Hother k Hk). unfold g2; cbn [g_nodes].
        rewrite lookupNode_updateNode_eq, Ha, Nat.add_0_r; cbn.
        unfold f; cbn. by rewrite lookup_insert_ne, !lookup_insert_eq.
      * destruct (Hpos j key Hj) as [Hx Hy].
        rewrite Horder in Hx, Hy.
        by replace (i + S j)%nat with (S i + j)%nat by lia.
    + intros key Hkey. apply not_elem_of_cons in Hkey as [Hne Hkey].
      rewrite (Hother key Hkey). unfold g2; cbn [g_nodes].
      by rewrite lookupNode_updateNode_other.
    + intros key name Hx Hy. rewrite (Hframe key name Hx Hy).
      unfold getNodeAttribute, g2; cbn [g_nodes].
      destruct (decide (key = k)) as [->|Hne].
      * rewrite lookupNode_updateNode_eq, Ha; cbn. unfold f; cbn.
        by rewrite !lookup_insert_ne.
      * by rewrite lookupNode_updateNode_other.
Qed.


End ArrangeFacts.

(** ** The further properties on concrete pages *)

(** The label of "John" after a drag and a stage click. *)
Lemma other_attributes_never_change_witness :
  let evs := [DownNode "John"; MouseMoveBody (Demo.point 5 6); MouseUp;
              ClickStage (Demo.point 1 0) "#5db346" Demo.uuid1] in
  "John" ∈ nodes (graph Demo.world0)
  ∧ getNodeAttribute "John" "label" (graph (Demo.run Demo.world0 evs))
    = getNodeAttribute "John" "label" (graph Demo.world0).
Proof.
  intros evs.
  assert ("John" ∈ nodes (graph Demo.world0)) as Hin by compute_done.
  split; [exact Hin|].
  exact (other_attributes_never_change
           Demo.viewportToGraph Demo.getBBox Demo.world0 evs "John" "label"
           Hin ltac:(discriminate) ltac:(discriminate) ltac:(discriminate)).
Defined.

(** A drag adds no node and no edge. *)
Lemma graph_only_grows_witness :
  let evs := [DownNode "John"; MouseMoveBody (Demo.point 5 6); MouseUp] in
  clickCount evs = 0
  ∧ nodes (graph (Demo.run Demo.world0 evs)) = nodes (graph Demo.world0)
  ∧ g_edges (graph (Demo.run Demo.world0 evs)) = g_edges (graph Demo.world0).
Proof.
  intros evs.
  assert (clickCount evs = 0) as Hzero by reflexivity.
  split; [exact Hzero|].
  exact (proj2 (proj2 (graph_only_grows
                         Demo.viewportToGraph Demo.getBBox Demo.world0 evs))
               Hzero).
Defined.

(** A stage click whose key is "John". *)
Lemma stage_click_with_used_key_changes_nothing_witness :
  "John" ∈ nodes (graph Demo.world0)
  ∧ handle Demo.viewportToGraph Demo.getBBox
      (ClickStage (Demo.point 1 0) "#5db346" "John") Demo.world0
    = (Demo.world0, Throw UsageGraphError).
Proof.
  assert ("John" ∈ nodes (graph Demo.world0)) as Hin by compute_done.
  split; [exact Hin|].
  exact (stage_click_with_used_key_changes_nothing
           Demo.viewportToGraph Demo.getBBox Demo.world0
           (Demo.point 1 0) "#5db346" "John" Hin).
Defined.

(** The page after a press on "John". *)
Lemma drag_variables_agree_witness :
  let w := Demo.run Demo.world0 [DownNode "John"] in
  Demo.reachable w
  ∧ ∃ n, draggedNode w = Some n ∧ isDragging w = true
         ∧ n ∈ nodes (graph w).
Proof.
  intros w.
  assert (Demo.reachable w) as Hreach.
  { exists [DownNode "John"]. split; [vm_compute; reflexivity | reflexivity]. }
  split; [exact Hreach|].
  destruct (drag_variables_agree
              Demo.viewportToGraph Demo.getBBox Demo.arrange w Hreach)
    as [[Hnone _]|Hsome]; [|exact Hsome].
  vm_compute in Hnone. discriminate Hnone.
Defined.

(** A release on the seeded page. *)
Lemma emitted_events_do_not_throw_witness :
  Demo.reachable Demo.world0
  ∧ emittable Demo.world0 MouseUp = true
  ∧ (handle Demo.viewportToGraph Demo.getBBox MouseUp Demo.world0).2 = Ok ().
Proof.
  assert (Demo.reachable Demo.world0) as Hreach
    by (exists []; split; reflexivity).
  assert (emittable Demo.world0 (@MouseUp intnum) = true) as Hev
    by reflexivity.
  split; [exact Hreach|]. split; [exact Hev|].
  destruct (emitted_events_do_not_throw
              Demo.viewportToGraph Demo.getBBox Demo.arrange
              Demo.world0 MouseUp Hreach Hev)
    as [Hok|(event & color & id & Hclick & _)]; [exact Hok|].
  discriminate Hclick.
Defined.

(** A press on "John" released at once. *)
Lemma press_then_release_restores_graph_witness :
  "John" ∈ nodes (graph Demo.world0)
  ∧ "John" ≠ EmptyString
  ∧ getNodeAttribute "John" "highlighted" (graph Demo.world0) = None
  ∧ Demo.run Demo.world0 [DownNode "John"; MouseUp]
    = mkWorld (graph Demo.world0) None false (customBBox Demo.world0).
Proof.
  assert ("John" ∈ nodes (graph Demo.world0)) as Hin by compute_done.
  assert ("John" ≠ EmptyString) as Hne by discriminate.
  assert (getNodeAttribute "John" "highlighted" (graph Demo.world0) = None)
    as Hh by (vm_compute; reflexivity).
  split; [exact Hin|]. split; [exact Hne|]. split; [exact Hh|].
  exact (press_then_release_restores_graph
           Demo.viewportToGraph Demo.getBBox Demo.world0 "John" Hin Hne Hh).
Defined.

(** Dragging "John" over (3,4) to (5,6): the edges are untouched. *)
Lemma drag_session_changes_only_position_witness :
  "John" ∈ nodes (graph Demo.world0)
  ∧ "John" ≠ EmptyString
  ∧ getNodeAttribute "John" "highlighted" (graph Demo.world0) = None
  ∧ g_edges (graph (Demo.run Demo.world0
       (DownNode "John"
        :: map MouseMoveBody ([Demo.point 3 4] ++ [Demo.point 5 6])
        ++ [MouseUp])))
    = g_edges (graph Demo.world0).
Proof.
  assert ("John" ∈ nodes (graph Demo.world0)) as Hin by compute_done.
  assert ("John" ≠ EmptyString) as Hne by discriminate.
  assert (getNodeAttribute "John" "highlighted" (graph Demo.world0) = None)
    as Hh by (vm_compute; reflexivity).
  split; [exact Hin|]. split; [exact Hne|]. split; [exact Hh|].
  rewrite (drag_session_changes_only_position
             Demo.viewportToGraph Demo.getBBox Demo.world0 "John"
             [Demo.point 3 4] (Demo.point 5 6) Hin Hne Hh).
  cbn [graph g_edges]. reflexivity.
Defined.

(** "Mary" pressed while "John" is highlighted. *)
Lemma second_press_leaves_highlight_behind_witness :
  let w := Demo.step Demo.world0 (DownNode "John") in
  "John" ≠ "Mary"
  ∧ "Mary" ∈ nodes (graph w)
  ∧ getNodeAttribute "John" "highlighted" (graph w) = Some (VBool true)
  ∧ getNodeAttribute "John" "highlighted"
      (graph (Demo.step (Demo.step w (DownNode "Mary")) MouseUp))
    = Some (VBool true)
  ∧ isDragging (Demo.step (Demo.step w (DownNode "Mary")) MouseUp) = false.
Proof.
  intros w.
  assert ("John" ≠ "Mary") as Hnm by discriminate.
  assert ("Mary" ∈ nodes (graph w)) as Hin by compute_done.
  assert ("Mary" ≠ EmptyString) as Hne by discriminate.
  assert (getNodeAttribute "John" "highlighted" (graph w) = Some (VBool true))
    as Hh by (vm_compute; reflexivity).
  split; [exact Hnm|]. split; [exact Hin|]. split; [exact Hh|].
  destruct (second_press_leaves_highlight_behind
              Demo.viewportToGraph Demo.getBBox w "John" "Mary" (VBool true)
              Hnm Hin Hne Hh)
    as (_ & _ & _ & _ & Hkept & _ & _ & Hidle).
  split; [exact Hkept | exact Hidle].
Defined.

(** A drag of the node stored under the empty key. *)
Lemma empty_key_node_cannot_be_dragged_witness :
  EmptyString ∈ nodes (graph Demo.emptyKeyWorld)
  ∧ highlightedNodes
      (graph (Demo.run Demo.emptyKeyWorld
         (DownNode EmptyString :: map MouseMoveBody [Demo.point 1 1]
          ++ [MouseUp])))
    = [EmptyString].
Proof.
  assert (EmptyString ∈ nodes (graph Demo.emptyKeyWorld)) as Hin
    by compute_done.
  split; [exact Hin|].
  rewrite (empty_key_node_cannot_be_dragged
             Demo.viewportToGraph Demo.getBBox Demo.emptyKeyWorld
             [Demo.point 1 1] Hin).
  vm_compute. reflexivity.
Defined.

(** A press naming "Nobody", then a move and a release. *)
Lemma press_on_unknown_node_blocks_session_witness :
  let evs := [MouseMoveBody (Demo.point 1 1); MouseUp] in
  ("Nobody" ∉ nodes (graph Demo.world0))
  ∧ "Nobody" ≠ EmptyString
  ∧ Forall (λ ev, ev = MouseUp ∨ ∃ e, ev = MouseMoveBody e) evs
  ∧ Demo.run Demo.world0 (DownNode "Nobody" :: evs)
    = mkWorld (graph Demo.world0) (Some "Nobody") true
              (customBBox Demo.world0).
Proof.
  intros evs.
  assert ("Nobody" ∉ nodes (graph Demo.world0)) as Hout by compute_done.
  assert ("Nobody" ≠ EmptyString) as Hne by discriminate.
  assert (Forall (λ ev : Event intnum,
                    ev = MouseUp ∨ ∃ e, ev = MouseMoveBody e) evs) as Hevs.
  { apply Forall_cons. split; [right; by eexists|].
    apply Forall_cons. split; [by left | apply Forall_nil_2]. }
  split; [exact Hout|]. split; [exact Hne|]. split; [exact Hevs|].
  exact (proj1 (proj2 (press_on_unknown_node_blocks_session
                         Demo.viewportToGraph Demo.getBBox Demo.world0
                         "Nobody" evs Hout Hne Hevs))).
Defined.

(** A click at (1,0) on the seeded page: "Mary" and "Kouign Amann" are
    equally far and "Mary" comes first. *)
Lemma equidistant_nodes_keep_iteration_order_witness :
  let node := newNode (Demo.point 1 0) "#5db346" in
  let cs := candidates node (graph Demo.world0) in
  let mary := mkCandidate "Mary" (Int 9941) in
  consistent cs = true
  ∧ mary ∈ cs
  ∧ filter (λ c, ties c mary = true) (sort cs)
    = filter (λ c, ties c mary = true) cs
  ∧ map nodeId (filter (λ c, ties c mary = true) cs)
    = ["Mary"; "Kouign Amann"].
Proof.
  intros node cs mary.
  assert (consistent cs = true) as Hc by (vm_compute; reflexivity).
  assert (mary ∈ cs) as Hin.
  { apply list_elem_of_lookup. exists 1. vm_compute. reflexivity. }
  split; [exact Hc|]. split; [exact Hin|]. split.
  - pose proof (equidistant_nodes_keep_iteration_order
                  Demo.world0 node mary) as Hstable.
    cbv zeta in Hstable. exact (proj2 (Hstable Hc Hin)).
  - vm_compute. reflexivity.
Defined.

(** The closest nodes when "b" has no position. *)
Lemma closest_nodes_are_distinct_graph_nodes_witness :
  NoDup (nodes (graph Demo.strayWorld))
  ∧ ∃ sel,
      closestNodes (newNode (Demo.point 1 0) "#5db346") Demo.strayWorld
      = (Demo.strayWorld, Ok sel)
      ∧ length sel = 2 ∧ NoDup (nodeId <$> sel).
Proof.
  assert (NoDup (nodes (graph Demo.strayWorld))) as Hnd by compute_done.
  split; [exact Hnd|].
  destruct (closest_nodes_are_distinct_graph_nodes
              Demo.strayWorld (newNode (Demo.point 1 0) "#5db346") Hnd)
    as (sel & Hsel & Hlen & Hdistinct & _).
  exists sel. split; [exact Hsel|]. split; [exact Hlen | exact Hdistinct].
Defined.


(** After the release that follows two presses, a stage click and a
    move: no node beyond "John" is highlighted. *)
Lemma only_a_press_highlights_witness :
  let w := Demo.run Demo.world0 [DownNode "John"; DownNode "Mary"; MouseUp] in
  let evs := [ClickStage (Demo.point 1 0) "#5db346" Demo.uuid1;
              MouseMoveBody (Demo.point 5 6); MouseUp; MouseDown] in
  Forall (λ ev, ∀ n, ev ≠ DownNode n) evs
  ∧ highlightedNodes (graph (Demo.run w evs)) ⊆ highlightedNodes (graph w).
Proof.
  intros w evs.
  assert (Forall (λ ev : Event intnum, ∀ n, ev ≠ DownNode n) evs) as Hevs.
  { repeat (apply Forall_cons; split; [by intros n|]). apply Forall_nil_2. }
  split; [exact Hevs|].
  pose proof (only_a_press_highlights
                Demo.viewportToGraph Demo.getBBox w evs) as Hsub.
  exact (Hsub Hevs).
Defined.
